(** * grafana-websocket-plugin: the backend's channel registry, settings
      loader and per-subscription stream bridge.

    Sources embedded here:
    - [pkg/models/settings.go]  ([LoadPluginSettings] and its helpers);
    - [pkg/plugin/plugin.go]    ([query], [mergeQueryParams],
      [setChannelConfig], [getChannelConfig], [RunStream], [PublishStream]);
    - the proxy file of package [plugin] ([NewWsDataProxy], [readMessage],
      [proxyMessage], [encodeURL], [wsConnect], [sendErrorFrame]);
    - Go's [path.Clean] and [path.Join], which [query] and [encodeURL] call.

    Go strings are byte strings: they are [string] here.  Go maps with string
    keys are [gmap string _]; a nil map reads as the empty map. *)

From Stdlib Require Import ZArith Ascii String List Bool Lia.
From stdpp Require Import base option list strings gmap fin_maps pretty.

Local Open Scope list_scope.
Local Set Warnings "-register-all".

(** ** Go's [for k, v := range m]

    Go leaves the order in which [range] visits a map unspecified.  The
    runtime's choice is a function [iter] from a map to an enumeration of its
    entries; [range_ok iter] says that it enumerates every entry exactly once.
    Loops over maps are folds over [iter m]. *)

Definition map_iter : Type := forall V : Type, gmap string V -> list (string * V).

Definition range_ok (iter : map_iter) : Prop :=
  forall (V : Type) (m : gmap string V), iter V m ≡ₚ map_to_list m.

Definition range {V S : Type} (iter : map_iter) (m : gmap string V)
    (body : string -> V -> S -> S) (init : S) : S :=
  foldl (fun acc kv => body kv.1 kv.2 acc) init (iter V m).

(** ** Go's [path] package: [Clean] and [Join] *)

Module GoPath.

Definition slash : ascii := "/"%char.
Definition dot : ascii := "."%char.

Definition is_slash (c : ascii) : bool := Ascii.eqb c slash.
Definition is_dot (c : ascii) : bool := Ascii.eqb c dot.

(** [r+k == n || path[r+k] == '/'] for the suffix [rest = path[r+k:]]. *)
Definition ends_element (rest : list ascii) : bool :=
  match rest with
  | [] => true
  | c :: _ => is_slash c
  end.

(** The inner loop of the [..] case, after the first [out.w--]:
    [for out.w > dotdot && out.index(out.w) != '/' { out.w-- }]. *)
Fixpoint backtrack (fuel : nat) (buf : list ascii) (w dotdot : nat) : nat :=
  match fuel with
  | O => w
  | S fuel' =>
      if (dotdot <? w)%nat && negb (is_slash (nth w buf slash))
      then backtrack fuel' buf (w - 1) dotdot
      else w
  end.

(** [for ; r < n && path[r] != '/'; r++ { out.append(path[r]) }]: the copied
    element and the suffix left to read. *)
Fixpoint copy_element (rest : list ascii) : list ascii * list ascii :=
  match rest with
  | [] => ([], [])
  | c :: rest' =>
      if is_slash c then ([], rest)
      else let '(el, tl) := copy_element rest' in (c :: el, tl)
  end.

(** The main loop [for r < n { switch ... }] of [Clean].  [rest] is the
    unread suffix [path[r:]], [out] the first [out.w] bytes of the lazy
    buffer ([out.w = length out]).  Every iteration reads at least one byte,
    so [length rest] iterations are enough ([clean_loop_fuel] below). *)
Fixpoint clean_loop (fuel : nat) (rooted : bool)
    (rest out : list ascii) (dotdot : nat) : list ascii :=
  match fuel with
  | O => out
  | S fuel' =>
      match rest with
      | [] => out
      | c :: rest1 =>
          if is_slash c then
            (* empty path element *)
            clean_loop fuel' rooted rest1 out dotdot
          else if is_dot c && ends_element rest1 then
            (* . element *)
            clean_loop fuel' rooted rest1 out dotdot
          else if is_dot c && is_dot (hd slash rest1)
                  && ends_element (tl rest1) then
            (* .. element: remove to last / *)
            let rest2 := tl rest1 in
            if (dotdot <? length out)%nat then
              (* can backtrack *)
              let w := backtrack (length out) out (length out - 1) dotdot in
              clean_loop fuel' rooted rest2 (take w out) dotdot
            else if negb rooted then
              (* cannot backtrack, but not rooted: append the .. element *)
              let out1 := if (0 <? length out)%nat then out ++ [slash] else out in
              let out2 := out1 ++ [dot; dot] in
              clean_loop fuel' rooted rest2 out2 (length out2)
            else
              clean_loop fuel' rooted rest2 out dotdot
          else
            (* real path element: add slash if needed, copy element *)
            let out1 :=
              if (rooted && negb (length out =? 1)%nat)
                 || (negb rooted && negb (length out =? 0)%nat)
              then out ++ [slash] else out in
            let '(el, rest') := copy_element rest in
            clean_loop fuel' rooted rest' (out1 ++ el) dotdot
      end
  end.

Definition Clean_bytes (path : list ascii) : list ascii :=
  match path with
  | [] => [dot]
  | c0 :: _ =>
      let rooted := is_slash c0 in
      let out :=
        if rooted
        then clean_loop (length path) rooted (tl path) [slash] 1
        else clean_loop (length path) rooted path [] 0 in
      (* Turn empty string into "." *)
      match out with
      | [] => [dot]
      | _ => out
      end
  end.

Definition Clean (path : string) : string :=
  string_of_list_ascii (Clean_bytes (list_ascii_of_string path)).

(** The loop of [Join] that builds [buf]: an element is skipped only while
    [buf] is still empty and the element is empty. *)
Fixpoint join_buf (buf : string) (elem : list string) : string :=
  match elem with
  | [] => buf
  | e :: elem' =>
      if negb (String.length buf =? 0)%nat || negb (String.eqb e "") then
        let buf1 := if negb (String.length buf =? 0)%nat then buf +:+ "/" else buf in
        join_buf (buf1 +:+ e) elem'
      else join_buf buf elem'
  end.

Definition Join (elem : list string) : string :=
  let size := foldr (fun e n => (String.length e + n)%nat) 0%nat elem in
  if (size =? 0)%nat then "" else Clean (join_buf "" elem).

End GoPath.

(** ** Package [models]: settings.go *)

Module models.

(** The dynamic values [json.Unmarshal] stores in a [map[string]any]:
    nil, bool, float64 (kept as the number's literal), string, []any and
    map[string]any. *)
Inductive any : Type :=
| ANil
| ABool (b : bool)
| ANumber (lit : string)
| AString (s : string)
| ASlice (l : list any)
| AMap (m : gmap string any).

Record SecretPluginSettings := mkSecret {
  ApiKey : string;
  secure : gmap string string
}.

Record PluginSettings := mkSettings {
  Path : string;
  Headers : gmap string string;
  QueryParameters : gmap string string;
  Secrets : option SecretPluginSettings   (* a pointer; [None] is nil *)
}.

(** What [LoadPluginSettings] reads of [backend.DataSourceInstanceSettings]. *)
Record DataSourceInstanceSettings := mkDSSettings {
  UID : string;
  URL : string;
  JSONData : string;
  DecryptedSecureJSONData : gmap string string
}.

(** [s[:len(prefix)] == prefix] guarded by [len(s) >= len(prefix)]. *)
Definition hasPrefix (s prefix : string) : bool :=
  (String.length prefix <=? String.length s)%nat
  && String.eqb (substring 0 (String.length prefix) s) prefix.

(** [for i := 0; i+len(substr) <= len(s); i++]; the result is an [int],
    [-1] when there is no occurrence. *)
Fixpoint indexOf_loop (fuel i : nat) (s substr : string) : Z :=
  match fuel with
  | O => (-1)%Z
  | S fuel' =>
      if (i + String.length substr <=? String.length s)%nat then
        if String.eqb (substring i (String.length substr) s) substr
        then Z.of_nat i
        else indexOf_loop fuel' (S i) s substr
      else (-1)%Z
  end.

Definition indexOf (s substr : string) : Z :=
  indexOf_loop (S (String.length s)) 0 s substr.

(** splitOnName splits the first occurrence of "Name" in a legacy key. *)
Definition splitOnName (setting : string) : list string :=
  let marker := "Name" in
  let idx := indexOf setting marker in
  if (0 <=? idx)%Z then
    [ substring 0 (Z.to_nat idx) setting;
      substring (Z.to_nat idx + String.length marker)
                (String.length setting - (Z.to_nat idx + String.length marker))
                setting ]
  else [setting].

Definition prefixFromName (setting : string) : string :=
  match splitOnName setting with
  | [p; _] => p
  | _ => ""
  end.

Definition suffixFromName (setting : string) : string :=
  match splitOnName setting with
  | [_; sfx] => sfx
  | _ => ""
  end.

Definition loadSecretPluginSettings (source : gmap string string)
  : option SecretPluginSettings :=
  Some (mkSecret (default "" (source !! "apiKey")) source).

Definition valueFor (s : option SecretPluginSettings) (prefix suffix : string)
  : string :=
  match s with
  | None => ""
  | Some s => default "" (secure s !! (prefix +:+ "Value" +:+ suffix))
  end.

Definition HeaderValue (s : option SecretPluginSettings) (headerNameKey : string) : string :=
  valueFor s (prefixFromName headerNameKey) (suffixFromName headerNameKey).

Definition QueryParamValue (s : option SecretPluginSettings) (paramNameKey : string) : string :=
  valueFor s (prefixFromName paramNameKey) (suffixFromName paramNameKey).

Section Loader.

(** [encoding/json] decoding [JSONData] into a [map[string]any], and
    [fmt.Sprint] on a value that is not a string: library functions, taken
    as they are. *)
Variable json_Unmarshal : string -> gmap string any + string.
Variable fmt_Sprint : any -> string.
Variable iter : map_iter.

Definition toString (v : any) : string :=
  match v with
  | ANil => ""
  | AString t => t
  | t => fmt_Sprint t
  end.

(** [raw[k]]: a missing key reads as nil. *)
Definition raw_get (raw : gmap string any) (k : string) : any :=
  default ANil (raw !! k).

Definition set_Headers (st : PluginSettings) (h : gmap string string) :=
  mkSettings (Path st) h (QueryParameters st) (Secrets st).

Definition set_QueryParameters (st : PluginSettings) (q : gmap string string) :=
  mkSettings (Path st) (Headers st) q (Secrets st).

(** Body of the two loops over the structured fields:
    [if s := toString(v); s != "" { target[k] = s }]. *)
Definition structured_body (k : string) (v : any) (target : gmap string string)
  : gmap string string :=
  let s := toString v in
  if negb (String.eqb s "") then <[k := s]> target else target.

(** Body of the loop over the legacy [headerName*]/[queryParamName*] keys. *)
Definition legacy_body (key : string) (val : any) (settings : PluginSettings)
  : PluginSettings :=
  if negb (hasPrefix key "headerName") && negb (hasPrefix key "queryParamName")
  then settings
  else
    let name := toString val in
    if String.eqb name "" then settings
    else if hasPrefix key "headerName" then
      set_Headers settings
        (<[name := HeaderValue (Secrets settings) key]> (Headers settings))
    else if hasPrefix key "queryParamName" then
      set_QueryParameters settings
        (<[name := QueryParamValue (Secrets settings) key]> (QueryParameters settings))
    else settings.

Definition LoadPluginSettings (source : DataSourceInstanceSettings)
  : PluginSettings + string :=
  match json_Unmarshal (JSONData source) with
  | inr err => inr ("could not unmarshal PluginSettings json: " +:+ err)
  | inl raw =>
      let settings :=
        mkSettings (toString (raw_get raw "path")) ∅ ∅
          (loadSecretPluginSettings (DecryptedSecureJSONData source)) in
      (* Prefer structured headers/queryParameters if provided *)
      let settings :=
        match raw_get raw "headers" with
        | AMap hdrs =>
            set_Headers settings (range iter hdrs structured_body (Headers settings))
        | _ => settings
        end in
      let settings :=
        match raw_get raw "queryParameters" with
        | AMap qps =>
            set_QueryParameters settings
              (range iter qps structured_body (QueryParameters settings))
        | _ => settings
        end in
      (* Fallback to legacy headerName*/queryParamName* pattern if present *)
      inl (range iter raw legacy_body settings)
  end.

End Loader.

End models.

(** ** Package [plugin] *)

Module plugin.

(** *** Data *)

(** A Go [error] value: nil, or an error with its [Error()] text. *)
Definition error : Type := option string.

(** Calling [err.Error()]: on a nil interface value the call panics
    (nil pointer dereference), which is [None] here. *)
Definition error_Error (err : error) : option string := err.

(** [data.Field] with string values and no labels, and [data.Frame]. *)
Record Field := mkField {
  FieldName : string;
  FieldValues : list string
}.

Record FrameMeta := mkFrameMeta { Channel : string }.

Record Frame := mkFrame {
  Name : string;
  Fields : list Field;
  Meta : option FrameMeta
}.

Definition NewFrame (name : string) : Frame := mkFrame name [] None.
Definition NewField (name : string) (values : list string) : Field :=
  mkField name values.
Definition append_Field (frame : Frame) (f : Field) : Frame :=
  mkFrame (Name frame) (Fields frame ++ [f]) (Meta frame).
Definition SetMeta (frame : Frame) (m : FrameMeta) : Frame :=
  mkFrame (Name frame) (Fields frame) (Some m).

(** A [map[string]string] is a reference: [loc] is the identity of one map
    object, the store [maps] gives each object's contents. *)
Definition loc : Type := positive.

Record channelConfig := mkChannelConfig {
  path : string;
  queryParams : loc
}.

Record WebSocketDataSource := mkDS {
  customHeaders : loc;
  customQueryParameters : loc;
  channelConfigs : gmap string channelConfig
}.

Record queryModel := mkQueryModel {
  WsPath : string;
  QueryParams : gmap string string   (* decoded afresh for each query *)
}.

Record DataQuery := mkDataQuery {
  RefID : string;
  JSON : string
}.

Record PluginContext := mkPluginContext {
  DataSourceInstanceSettings : models.DataSourceInstanceSettings
}.

Record DataResponse := mkDataResponse {
  Error : error;
  Frames : list Frame
}.

Record QueryDataRequest := mkQueryDataRequest {
  QPluginContext : PluginContext;
  Queries : list DataQuery
}.

Record RunStreamRequest := mkRunStreamRequest {
  RPluginContext : PluginContext;
  RPath : string
}.

Record PublishStreamRequest := mkPublishStreamRequest {
  PPluginContext : PluginContext;
  PPath : string;
  PData : string
}.

Inductive PublishStreamStatus :=
| PublishStreamStatusOK
| PublishStreamStatusNotFound
| PublishStreamStatusPermissionDenied.

Record PublishStreamResponse := mkPublishStreamResponse {
  PStatus : PublishStreamStatus;
  PRespData : string
}.

Inductive SubscribeStreamStatus :=
| SubscribeStreamStatusOK
| SubscribeStreamStatusNotFound
| SubscribeStreamStatusPermissionDenied.

(** [live.Channel] and its [String()]: the scope, then the namespace and the
    path, each after a separator and each left out when it is empty:
    [ch := c.Scope; if c.Namespace != "" { ch += "/" + c.Namespace };
     if c.Path != "" { ch += "/" + c.Path }; return ch]. *)
Record LiveChannel := mkLiveChannel {
  Scope : string;
  Namespace : string;
  CPath : string
}.

Definition ScopeDatasource : string := "ds".

Definition Channel_String (c : LiveChannel) : string :=
  let ch := Scope c in
  let ch :=
    if negb (String.eqb (Namespace c) "") then ch +:+ "/" +:+ Namespace c
    else ch in
  let ch :=
    if negb (String.eqb (CPath c) "") then ch +:+ "/" +:+ CPath c else ch in
  ch.

(** The HTTP response a failed handshake may come with. *)
Record Response := mkResponse {
  StatusCode : Z;
  Status : string;
  Body : option string
}.

Inductive DialResult :=
| DialOk
| DialErr (msg : string) (resp : option Response).

(** What a handler does to the outside, in order. *)
Inductive Event :=
| EvSendFrame (frame : Frame)                       (* sender.SendFrame *)
| EvDial (url : string) (headers : list (string * string))
| EvSleep (seconds : nat)                           (* time.Sleep *)
| EvConnClose.                                      (* wsConn.Close *)

(** *** Handlers as state transformers

    The state a handler of one data-source instance works on: the contents
    of every live [map[string]string], the instance itself (the pointer
    receiver [wsds]) and the events so far.  The mutex [mu] orders the
    accesses to [channelConfigs]; handlers are run one after the other
    here, so [Lock]/[Unlock] do nothing. *)
Record World := mkWorld {
  maps : gmap loc (gmap string string);
  wsds : WebSocketDataSource;
  trace : list Event
}.

Definition M (A : Type) : Type := World -> A * World.

Definition ret {A : Type} (a : A) : M A := fun w => (a, w).

Definition bind {A B : Type} (m : M A) (k : A -> M B) : M B :=
  fun w => let '(a, w') := m w in k a w'.

Notation "'do' x <- m ; k" := (bind m (fun x => k))
  (at level 10, x name, m at level 100, k at level 200).
Notation "m ;; k" := (bind m (fun _ => k))
  (at level 100, k at level 200, right associativity).

Fixpoint forM_ {A : Type} (l : list A) (body : A -> M unit) : M unit :=
  match l with
  | [] => ret tt
  | a :: l' => body a ;; forM_ l' body
  end.

Definition get_ds : M WebSocketDataSource := fun w => (wsds w, w).

Definition emit (e : Event) : M unit :=
  fun w => (tt, mkWorld (maps w) (wsds w) (trace w ++ [e])).

(** [map[string]string{}]: a new, empty map object. *)
Definition new_map : M loc :=
  fun w =>
    let l := fresh (dom (maps w)) in
    (l, mkWorld (<[l := ∅]> (maps w)) (wsds w) (trace w)).

(** The contents of the map object [l]. *)
Definition read_map (l : loc) : M (gmap string string) :=
  fun w => (default ∅ (maps w !! l), w).

(** [m[k] = v] on the map object [l]. *)
Definition map_store (l : loc) (k v : string) : M unit :=
  fun w =>
    (tt, mkWorld (<[l := <[k := v]> (default ∅ (maps w !! l))]> (maps w))
                 (wsds w) (trace w)).

(** [for k, v := range <map object l> { body }]. *)
Definition range_map (iter : map_iter) (l : loc)
    (body : string -> string -> M unit) : M unit :=
  do m <- read_map l;
  forM_ (iter _ m) (fun kv => body kv.1 kv.2).

Section Handlers.

(** Library functions and the network, taken as they are:
    [encoding/json] decoding a query's JSON into a [queryModel];
    [net/url]'s parsed URL with [url.Parse], the [Path] field, the two
    assignments [wsUrl.Path = p; wsUrl.RawQuery = q], [String()], and
    [url.Values] filled by [Add] in the given order and then [Encode()]d;
    [strings.TrimSpace]; and [websocket.DefaultDialer.Dial] with the
    headers [Add]ed in the given order. *)
Variable json_Unmarshal : string -> queryModel + string.
Variable iter : map_iter.
Variable URL : Type.
Variable url_Parse : string -> URL + string.
Variable URL_Path : URL -> string.
Variable URL_set : URL -> string -> string -> URL.
Variable URL_String : URL -> string.
Variable Values_Encode : list (string * string) -> string.
Variable strings_TrimSpace : string -> string.
Variable Dial : string -> list (string * string) -> DialResult.

(** **** The channel registry and the query dispatcher *)

Definition mergeQueryParams (queryParams : gmap string string) : M loc :=
  do ds <- get_ds;
  do merged <- new_map;
  range_map iter (customQueryParameters ds) (fun k v => map_store merged k v) ;;
  forM_ (iter _ queryParams) (fun kv => map_store merged kv.1 kv.2) ;;
  ret merged.

Definition setChannelConfig (channelPath basePath : string) (params : loc)
  : M unit :=
  fun w =>
    let ds := wsds w in
    (tt, mkWorld (maps w)
           (mkDS (customHeaders ds) (customQueryParameters ds)
              (<[channelPath := mkChannelConfig basePath params]>
                 (channelConfigs ds)))
           (trace w)).

(** [cfg, ok := wsds.channelConfigs[channelPath]]: [None] is [ok = false]. *)
Definition getChannelConfig (channelPath : string) : M (option channelConfig) :=
  do ds <- get_ds;
  ret (channelConfigs ds !! channelPath).

Definition query (pCtx : PluginContext) (q : DataQuery) : M DataResponse :=
  let response := mkDataResponse None [] in
  (* Unmarshal the JSON into our queryModel. *)
  match json_Unmarshal (JSON q) with
  | inr err => ret (mkDataResponse (Some err) (Frames response))
  | inl qm =>
      (* create data frame response. *)
      let frame := NewFrame "response" in
      let channel :=
        mkLiveChannel ScopeDatasource
          (models.UID (DataSourceInstanceSettings pCtx))
          (GoPath.Join [GoPath.Clean (WsPath qm); RefID q]) in
      let frame := SetMeta frame (mkFrameMeta (Channel_String channel)) in
      (* add the frames to the response. *)
      let response := mkDataResponse (Error response) (Frames response ++ [frame]) in
      do params <- mergeQueryParams (QueryParams qm);
      setChannelConfig (CPath channel) (WsPath qm) params ;;
      ret response
  end.

(** [for _, q := range req.Queries { response.Responses[q.RefID] = res }]. *)
Fixpoint QueryData_loop (pCtx : PluginContext) (queries : list DataQuery)
    (responses : gmap string DataResponse) : M (gmap string DataResponse) :=
  match queries with
  | [] => ret responses
  | q :: queries' =>
      do res <- query pCtx q;
      QueryData_loop pCtx queries' (<[RefID q := res]> responses)
  end.

Definition QueryData (req : QueryDataRequest)
  : M (gmap string DataResponse * error) :=
  do responses <- QueryData_loop (QPluginContext req) (Queries req) ∅;
  ret (responses, None).

(** **** Subscribe and publish *)

Definition SubscribeStream (req : RunStreamRequest)
  : M (SubscribeStreamStatus * error) :=
  ret (SubscribeStreamStatusOK, None).

(** Do not allow publishing at all. *)
Definition PublishStream (req : PublishStreamRequest)
  : M (PublishStreamResponse * error) :=
  ret (mkPublishStreamResponse PublishStreamStatusPermissionDenied "", None).

(** **** Starting a stream *)

Definition errorFrame (msg : string) : Frame :=
  append_Field (NewFrame "error") (NewField "error" [msg]).

(** A failing [SendFrame] is only logged. *)
Definition sendErrorFrame (msg : string) : M unit :=
  emit (EvSendFrame (errorFrame msg)).

Definition encodeURL (req : RunStreamRequest) (cfg : channelConfig)
  : M (string + string) :=
  let host := models.URL (DataSourceInstanceSettings (RPluginContext req)) in
  match url_Parse host with
  | inr err =>
      ret (inr ("failed to parse host string from the Plugin's Config Editor: "
                +:+ err))
  | inl wsUrl =>
      do params <- read_map (queryParams cfg);
      (* add all query parameters to the URL *)
      let wsUrl :=
        URL_set wsUrl (GoPath.Join [URL_Path wsUrl; path cfg])
                (Values_Encode (iter _ params)) in
      ret (inl (URL_String wsUrl))
  end.

(** [wsConnect]: [inl tt] is the connection, [inr] the error's text. *)
Definition wsConnect (wsUrl : string) : M (unit + string) :=
  do ds <- get_ds;
  do hdrs <- read_map (customHeaders ds);
  let customHeaders := iter _ hdrs in
  emit (EvDial wsUrl customHeaders) ;;
  match Dial wsUrl customHeaders with
  | DialOk => ret (inl tt)
  | DialErr msg resp =>
      let msg :=
        match resp with
        | None => msg
        | Some resp =>
            let body :=
              match Body resp with
              | None => ""
              | Some b => strings_TrimSpace (substring 0 1024 b)
              end in
            let msg :=
              msg +:+ " (status " +:+ pretty (StatusCode resp) +:+ " "
                  +:+ Status resp +:+ ")" in
            if negb (String.eqb body "") then msg +:+ ": " +:+ body else msg
        end in
      ret (inr ("websocket dial failed: " +:+ msg))
  end.

(** [NewWsDataProxy]: [inl wsUrl] is the proxy, connected to [wsUrl], with
    its three channels just made. *)
Definition NewWsDataProxy (req : RunStreamRequest) (cfg : channelConfig)
  : M (string + string) :=
  do url <- encodeURL req cfg;
  match url with
  | inr err => ret (inr ("encode URL Error: " +:+ err))
  | inl url =>
      do c <- wsConnect url;
      match c with
      | inr err => ret (inr ("connection Error: " +:+ err))
      | inl _ => ret (inl url)
      end
  end.

(** **** A running subscription

    After a successful start [RunStream] runs three activities: itself,
    waiting in its [select]; [readMessage]; and [proxyMessage].  [Sub] is
    their joint state: where each one stands, the three channels, the
    connection, and the events so far.  A step is one activity moving, or
    two meeting on an unbuffered channel. *)

Inductive SupState :=
| SupSelect                     (* waiting in the select *)
| SupReturned (err : error)     (* RunStream returned err *)
| SupPanicked.                  (* RunStream panicked *)

Inductive ReaderState :=
| RSelect                       (* at the select on done *)
| RReading                      (* inside wsConn.ReadMessage *)
| RSleeping (err : string)      (* ReadMessage failed; about to sleep *)
| RSendErr (rError : string)    (* blocked in readingErrors <- ... *)
| RHandoff (message : string)   (* blocked in msgRead <- message *)
| RDefer                        (* returning: the deferred function is due *)
| RExited.

Inductive RelayState :=
| PRecv                         (* blocked in <-msgRead *)
| PGot (message : string)       (* received message, ok = true *)
| PExited.

Record Sub := mkSub {
  sup : SupState;
  sup_err : error;          (* RunStream's variable err *)
  reader : ReaderState;
  relay : RelayState;
  relay_frame : Frame;      (* proxyMessage's variable frame *)
  done_chan : list bool;    (* buffer of done, capacity 1 *)
  msgRead_closed : bool;
  ctx_done : bool;          (* ctx.Done() is closed *)
  conn_open : bool;
  events : list Event
}.

Definition set_sup (s : Sub) (x : SupState) : Sub :=
  mkSub x (sup_err s) (reader s) (relay s) (relay_frame s) (done_chan s)
        (msgRead_closed s) (ctx_done s) (conn_open s) (events s).
Definition set_reader (s : Sub) (x : ReaderState) : Sub :=
  mkSub (sup s) (sup_err s) x (relay s) (relay_frame s) (done_chan s)
        (msgRead_closed s) (ctx_done s) (conn_open s) (events s).
Definition set_relay (s : Sub) (x : RelayState) : Sub :=
  mkSub (sup s) (sup_err s) (reader s) x (relay_frame s) (done_chan s)
        (msgRead_closed s) (ctx_done s) (conn_open s) (events s).
Definition set_relay_frame (s : Sub) (x : Frame) : Sub :=
  mkSub (sup s) (sup_err s) (reader s) (relay s) x (done_chan s)
        (msgRead_closed s) (ctx_done s) (conn_open s) (events s).
Definition set_done_chan (s : Sub) (x : list bool) : Sub :=
  mkSub (sup s) (sup_err s) (reader s) (relay s) (relay_frame s) x
        (msgRead_closed s) (ctx_done s) (conn_open s) (events s).
Definition set_msgRead_closed (s : Sub) (x : bool) : Sub :=
  mkSub (sup s) (sup_err s) (reader s) (relay s) (relay_frame s) (done_chan s)
        x (ctx_done s) (conn_open s) (events s).
Definition set_ctx_done (s : Sub) (x : bool) : Sub :=
  mkSub (sup s) (sup_err s) (reader s) (relay s) (relay_frame s) (done_chan s)
        (msgRead_closed s) x (conn_open s) (events s).
Definition set_conn_open (s : Sub) (x : bool) : Sub :=
  mkSub (sup s) (sup_err s) (reader s) (relay s) (relay_frame s) (done_chan s)
        (msgRead_closed s) (ctx_done s) x (events s).
Definition sub_emit (s : Sub) (e : Event) : Sub :=
  mkSub (sup s) (sup_err s) (reader s) (relay s) (relay_frame s) (done_chan s)
        (msgRead_closed s) (ctx_done s) (conn_open s) (events s ++ [e]).

(** The state in which [RunStream] reaches its [select]: both goroutines
    started, [msgRead] and [readingErrors] unbuffered and empty, [done]
    empty, the connection open; [err] is [RunStream]'s variable. *)
Definition start_sub (err : error) : Sub :=
  mkSub SupSelect err RSelect PRecv (NewFrame "response") [] false false true [].

Inductive RunResult :=
| Returned (err : error)
| Running (s : Sub).

(** [RunStream] up to its [select]. *)
Definition RunStream (req : RunStreamRequest) : M RunResult :=
  do cfg <- getChannelConfig (RPath req);
  match cfg with
  | None =>
      let err := "no channel config found for " +:+ RPath req in
      sendErrorFrame err ;;
      ret (Returned (Some err))
  | Some cfg =>
      do r <- NewWsDataProxy req cfg;
      let err : error := match r with inl _ => None | inr e => Some e end in
      match err with
      | Some e =>
          let errCtx := "Starting WebSocket" in
          sendErrorFrame (errCtx +:+ ": " +:+ e) ;;
          ret (Returned err)
      | None =>
          (* go wsDataProxy.proxyMessage(); go wsDataProxy.readMessage() *)
          ret (Running (start_sub err))
      end
  end.

(** [case <-ctx.Done():] of [RunStream]'s select.  [done] has capacity 1:
    the send blocks ([None]) while the buffer is full. *)
Definition RunStream_ctx_done (s : Sub) : option Sub :=
  if (length (done_chan s) <? 1)%nat then
    Some (set_sup (set_done_chan s (done_chan s ++ [true])) (SupReturned None))
  else None.

(** [case rError := <-wsDataProxy.readingErrors:] of [RunStream]'s select.
    Both the log call and [sendErrorFrame] take [err.Error()], the
    variable that held [NewWsDataProxy]'s error; the log call comes
    first. *)
Definition RunStream_readingErrors (s : Sub) (rError : string) : Sub :=
  match error_Error (sup_err s) with
  | None => set_sup s SupPanicked
  | Some msg =>
      set_sup
        (sub_emit s
           (EvSendFrame (errorFrame ("Error reading the websocket" +:+ ": " +:+ msg))))
        (SupReturned (Some rError))
  end.

(** One pass of [proxyMessage]'s loop after a message was received.  The
    result of [json.Unmarshal(message, &m)] is dropped and [m] is never
    read; a failing [SendFrame] is only logged. *)
Definition proxyMessage_body (s : Sub) (message : string) : Sub :=
  let frame := append_Field (relay_frame s) (NewField "data" [message]) in
  let s := sub_emit s (EvSendFrame frame) in
  set_relay (set_relay_frame s (mkFrame (Name frame) [] (Meta frame))) PRecv.

(** [readMessage]'s deferred function. *)
Definition readMessage_defer (s : Sub) : Sub :=
  let s := sub_emit (set_conn_open s false) EvConnClose in
  set_reader (set_msgRead_closed s true) RExited.

Inductive Action :=
| ACancel                        (* the caller cancels ctx *)
| ARead (r : string + string)    (* ReadMessage returns a message / an error *)
| ASupDone                       (* RunStream takes case <-ctx.Done() *)
| ASupReadErr                    (* readingErrors: reader sends, RunStream receives *)
| AReaderSelect                  (* readMessage's select on done *)
| AReaderSleep                   (* time.Sleep(3 * time.Second) *)
| AHandoff                       (* msgRead: reader sends, relay receives *)
| AReaderDefer                   (* readMessage returns *)
| ARelaySend                     (* proxyMessage handles a message *)
| ARelayClosed.                  (* proxyMessage sees msgRead closed *)

Definition step (a : Action) (s : Sub) : option Sub :=
  match a with
  | ACancel => Some (set_ctx_done s true)
  | ARead r =>
      match reader s with
      | RReading =>
          if conn_open s then
            match r with
            | inl message => Some (set_reader s (RHandoff message))
            | inr err => Some (set_reader s (RSleeping err))
            end
          else None
      | _ => None
      end
  | ASupDone =>
      match sup s with
      | SupSelect => if ctx_done s then RunStream_ctx_done s else None
      | _ => None
      end
  | ASupReadErr =>
      match sup s, reader s with
      | SupSelect, RSendErr rError =>
          Some (RunStream_readingErrors (set_reader s RDefer) rError)
      | _, _ => None
      end
  | AReaderSelect =>
      match reader s with
      | RSelect =>
          match done_chan s with
          | _ :: rest => Some (set_reader (set_done_chan s rest) RDefer)
          | [] => Some (set_reader s RReading)
          end
      | _ => None
      end
  | AReaderSleep =>
      match reader s with
      | RSleeping err =>
          Some (set_reader (sub_emit s (EvSleep 3))
                  (RSendErr ("Error reading the websocket" +:+ ": " +:+ err)))
      | _ => None
      end
  | AHandoff =>
      match reader s, relay s with
      | RHandoff message, PRecv =>
          if msgRead_closed s then None
          else Some (set_relay (set_reader s RSelect) (PGot message))
      | _, _ => None
      end
  | AReaderDefer =>
      match reader s with
      | RDefer => Some (readMessage_defer s)
      | _ => None
      end
  | ARelaySend =>
      match relay s with
      | PGot message => Some (proxyMessage_body s message)
      | _ => None
      end
  | ARelayClosed =>
      match relay s with
      | PRecv => if msgRead_closed s then Some (set_relay s PExited) else None
      | _ => None
      end
  end.

Fixpoint run (acts : list Action) (s : Sub) : option Sub :=
  match acts with
  | [] => Some s
  | a :: acts' =>
      match step a s with
      | Some s' => run acts' s'
      | None => None
      end
  end.

(** The moves of the three activities; the other two actions come from
    outside: the caller's cancellation and the upstream's traffic. *)
Definition internal (a : Action) : bool :=
  match a with
  | ACancel | ARead _ => false
  | _ => true
  end.

Definition frames_of (evs : list Event) : list Frame :=
  omap (fun e => match e with EvSendFrame f => Some f | _ => None end) evs.

Definition dials_of (evs : list Event) : list string :=
  omap (fun e => match e with EvDial u _ => Some u | _ => None end) evs.

(** The messages [ReadMessage] returned along a run, in order. *)
Definition received (acts : list Action) : list string :=
  omap (fun a => match a with ARead (inl m) => Some m | _ => None end) acts.

Definition responseFrame (message : string) : Frame :=
  mkFrame "response" [mkField "data" [message]] None.

(** **** Creating the instance *)

Variable json_Unmarshal_settings : string -> gmap string models.any + string.
Variable fmt_Sprint : models.any -> string.

(** [NewWebSocketDataSource]: the two maps of the loaded settings become the
    instance's map objects [customHeaders] and [customQueryParameters], the
    registry starts empty.  [inr] is the error. *)
Definition NewWebSocketDataSource (ds : models.DataSourceInstanceSettings)
  : World + string :=
  match models.LoadPluginSettings json_Unmarshal_settings fmt_Sprint iter ds with
  | inr err =>
      inr ("failed to read CustomSettings from the Query Request: " +:+ err)
  | inl settings =>
      inl (mkWorld {[ 1%positive := models.Headers settings;
                      2%positive := models.QueryParameters settings ]}
                   (mkDS 1%positive 2%positive ∅) [])
  end.

End Handlers.

End plugin.

(** * Vocabulary of the properties *)

Import plugin.

(** The instance's global default parameters, as stored. *)
Definition defaults_of (w : World) : gmap string string :=
  default ∅ (maps w !! customQueryParameters (wsds w)).

(** [m[k] = v] for every entry of an enumeration, in its order. *)
Definition store_all (acc : gmap string string) (kvs : list (string * string))
  : gmap string string :=
  foldl (fun acc kv => <[kv.1 := kv.2]> acc) acc kvs.

(** The registry key [query] writes for a decoded query. *)
Definition channel_key (qm : queryModel) (q : DataQuery) : string :=
  GoPath.Join [GoPath.Clean (WsPath qm); RefID q].

(** A channel config as a subscriber resolves it: the stored upstream path and
    the contents of the stored parameter map. *)
Definition config_view (w : World) (k : string)
  : option (string * gmap string string) :=
  match channelConfigs (wsds w) !! k with
  | Some cfg => Some (path cfg, default ∅ (maps w !! queryParams cfg))
  | None => None
  end.

(** Every map the instance refers to is a live map object. *)
Definition instance_wf (w : World) : Prop :=
  customQueryParameters (wsds w) ∈ dom (maps w)
  /\ forall k cfg, channelConfigs (wsds w) !! k = Some cfg ->
                   queryParams cfg ∈ dom (maps w).

(** What one handler run preserves of the state before it; [written] tells
    which registry keys it may have written. *)
Definition preserves (written : string -> Prop) (w w' : World) : Prop :=
  (forall l, l ∈ dom (maps w) -> maps w' !! l = maps w !! l)
  /\ customHeaders (wsds w') = customHeaders (wsds w)
  /\ customQueryParameters (wsds w') = customQueryParameters (wsds w)
  /\ trace w' = trace w
  /\ (forall k, ~ written k ->
        channelConfigs (wsds w') !! k = channelConfigs (wsds w) !! k).

(** The registry keys a batch of queries writes. *)
Definition written_by (json_Unmarshal : string -> queryModel + string)
    (queries : list DataQuery) (k : string) : Prop :=
  exists q qm, q ∈ queries /\ json_Unmarshal (JSON q) = inl qm
               /\ k = channel_key qm q.

(** The messages the read loop has received and the relay loop has not yet
    sent: the one the relay loop holds, then the one waiting at the handoff. *)
Definition pending (s : Sub) : list string :=
  match relay s with PGot m => [m] | _ => [] end
  ++ match reader s with RHandoff m => [m] | _ => [] end.

(** What holds of every state a started subscription reaches. *)
Definition sub_inv (s : Sub) : Prop :=
  sup_err s = None
  /\ relay_frame s = NewFrame "response"
  /\ (msgRead_closed s = true -> reader s = RExited)
  /\ (relay s = PExited -> msgRead_closed s = true)
  /\ (conn_open s = false -> reader s = RExited)
  /\ (forall e, sup s <> SupReturned (Some e))
  /\ (forall f, f ∈ frames_of (events s) -> Name f = "response").

(** The schedule that lets the relay loop send what is pending. *)
Definition flush (s : Sub) : list Action :=
  match relay s, reader s with
  | PGot _, RHandoff _ => [ARelaySend; AHandoff; ARelaySend]
  | PGot _, _ => [ARelaySend]
  | PRecv, RHandoff _ => [AHandoff; ARelaySend]
  | _, _ => []
  end.

(** A subscription with nothing to do: [RunStream] in its select, the read
    loop inside [ReadMessage], the relay loop waiting at the handoff, no stop
    signal posted, the connection open. *)
Definition idle (s : Sub) : Prop :=
  sup s = SupSelect /\ reader s = RReading /\ relay s = PRecv
  /\ done_chan s = [] /\ conn_open s = true /\ msgRead_closed s = false
  /\ relay_frame s = NewFrame "response".

(** The claim about cancellation, as the specification words it: once an idle
    subscription is cancelled, its own activities close the connection and
    end both loops, and send no frame meanwhile. *)
Definition cancel_tears_down (s : Sub) : Prop :=
  exists acts s',
    forallb internal acts = true
    /\ run (ACancel :: ASupDone :: acts) s = Some s'
    /\ conn_open s' = false
    /\ reader s' = RExited
    /\ relay s' = PExited
    /\ frames_of (events s') = frames_of (events s).

(** A plain path segment: not empty, without a separator, and neither [.]
    nor [..]; a ref id such as [A] is one. *)
Definition plain_segment (s : string) : bool :=
  negb (String.eqb s "") && negb (String.eqb s ".") && negb (String.eqb s "..")
  && forallb (fun c => negb (GoPath.is_slash c)) (list_ascii_of_string s).

Definition plain_bytes (seg : list ascii) : Prop :=
  seg <> [] /\ seg <> [GoPath.dot] /\ seg <> [GoPath.dot; GoPath.dot]
  /\ forallb (fun c => negb (GoPath.is_slash c)) seg = true.

(** [if rooted && out.w != 1 || !rooted && out.w != 0 { out.append('/') }] *)
Definition with_separator (rooted : bool) (out : list ascii) : list ascii :=
  if (rooted && negb (length out =? 1)%nat)
     || (negb rooted && negb (length out =? 0)%nat)
  then out ++ [GoPath.slash] else out.

(** Decoded [JSONData] in which the structured field [headers] and the legacy
    key [headerName1] both define the header [name]. *)
Definition raw_overlap (name structured : string) : gmap string models.any :=
  {[ "headers" := models.AMap {[ name := models.AString structured ]};
     "headerName1" := models.AString name ]}.

(** The same overlap between [queryParameters] and [queryParamName1]. *)
Definition raw_overlap_qp (name structured : string) : gmap string models.any :=
  {[ "queryParameters" := models.AMap {[ name := models.AString structured ]};
     "queryParamName1" := models.AString name ]}.

(** * Sample inputs *)

(** A runtime that visits maps in the order of [map_to_list]. *)
Definition iter0 : map_iter := fun V => map_to_list.

(** A JSON string literal. *)
Definition jstr (s : string) : string :=
  String (ascii_of_nat 34) (s +:+ String (ascii_of_nat 34) "").

Definition ds_settings : models.DataSourceInstanceSettings :=
  models.mkDSSettings "uid1" "ws://example.org/base" "{}" ∅.

(** An instance whose defaults are {a:"1", b:"2"}, with an empty registry. *)
Definition world_ab : World :=
  mkWorld {[ 1%positive := {[ "a" := "1"; "b" := "2" ]}; 2%positive := ∅ ]}
          (mkDS 2%positive 1%positive ∅) [].

(** The same instance after the channel "foo/A" was registered. *)
Definition world_reg : World :=
  mkWorld {[ 1%positive := {[ "a" := "1"; "b" := "2" ]};
             2%positive := ∅;
             3%positive := {[ "token" := "t0" ]} ]}
          (mkDS 2%positive 1%positive
                {[ "foo/A" := mkChannelConfig "foo" 3%positive ]})
          [].

(** Decoders that read every query as the path "bar//" with {b:"3"}, and as
    the path "foo/" without parameters. *)
Definition json_bar : string -> queryModel + string :=
  fun _ => inl (mkQueryModel "bar//" {[ "b" := "3" ]}).

Definition json_foo : string -> queryModel + string :=
  fun _ => inl (mkQueryModel "foo/" ∅).

Definition req_bar : QueryDataRequest :=
  mkQueryDataRequest (mkPluginContext ds_settings) [mkDataQuery "B" "{}"].

(** [RunStream] with a URL library that accepts every host and an upstream
    that accepts every handshake. *)
Definition URL_set0 (u p q : string) : string := u +:+ p +:+ "?" +:+ q.

Definition RunStream0 : RunStreamRequest -> M RunResult :=
  RunStream iter0 string inl (fun _ => "") URL_set0 (fun u => u) (fun _ => "")
            (fun b => b) (fun _ _ => DialOk).

Definition req_stream (p : string) : RunStreamRequest :=
  mkRunStreamRequest (mkPluginContext ds_settings) p.

(** The idle subscription: a started one whose read loop has entered
    [ReadMessage]. *)
Definition idle_sub : Sub :=
  mkSub SupSelect None RReading PRecv (NewFrame "response") [] false false true [].

(** A run in which the connection delivers "m1", "m2", "m3", and the state it
    ends in. *)
Definition acts_m123 : list Action :=
  [AReaderSelect; ARead (inl "m1"); AHandoff; ARelaySend;
   AReaderSelect; ARead (inl "m2"); AHandoff;
   AReaderSelect; ARead (inl "m3"); ARelaySend; AHandoff; ARelaySend].

Definition sub_m123 : Sub :=
  mkSub SupSelect None RSelect PRecv (NewFrame "response") [] false false true
        [EvSendFrame (responseFrame "m1"); EvSendFrame (responseFrame "m2");
         EvSendFrame (responseFrame "m3")].

(** Settings in which [headers] and [headerName1] both define "X-Auth", with
    the secret [headerValue1]. *)
Definition source_overlap : models.DataSourceInstanceSettings :=
  models.mkDSSettings "uid1" "ws://example.org/base"
    ("{" +:+ jstr "headers" +:+ ":{" +:+ jstr "X-Auth" +:+ ":"
     +:+ jstr "structured" +:+ "}," +:+ jstr "headerName1" +:+ ":"
     +:+ jstr "X-Auth" +:+ "}")
    {[ "headerValue1" := "legacy" ]}.

(** The entries of a structured settings field that get loaded: the field
    must be a JSON object, and an entry counts when its value does not render
    as the empty string. *)
Definition structured_strings (fmt_Sprint : models.any -> string)
    (field : models.any) : gmap string string :=
  match field with
  | models.AMap m =>
      omap (fun v => let s := models.toString fmt_Sprint v in
                     if String.eqb s "" then None else Some s) m
  | _ => ∅
  end.

(** The keys the legacy loop of [LoadPluginSettings] acts on. *)
Definition is_legacy_key (k : string) : bool :=
  models.hasPrefix k "headerName" || models.hasPrefix k "queryParamName".

(** The response [query] gives for one query: the decoding error, or one
    "response" frame without fields that names the channel, "ds/<uid>/<path>"
    or, for an instance without uid, "ds/<path>". *)
Definition response_of (json_Unmarshal : string -> queryModel + string)
    (pCtx : PluginContext) (q : DataQuery) : DataResponse :=
  match json_Unmarshal (JSON q) with
  | inr err => mkDataResponse (Some err) []
  | inl qm =>
      mkDataResponse None
        [mkFrame "response" []
           (Some (mkFrameMeta
                    (let uid := models.UID (DataSourceInstanceSettings pCtx) in
                     if String.eqb uid ""
                     then ScopeDatasource +:+ "/" +:+ channel_key qm q
                     else ScopeDatasource +:+ "/" +:+ uid +:+ "/"
                          +:+ channel_key qm q)))]
  end.

(** The channel paths the decodable queries of a batch register. *)
Definition registered_keys (json_Unmarshal : string -> queryModel + string)
    (queries : list DataQuery) : gset string :=
  list_to_set
    (omap (fun q => match json_Unmarshal (JSON q) with
                    | inl qm => Some (channel_key qm q)
                    | inr _ => None
                    end) queries).

(** The read loop has run its deferred function. *)
Definition reader_exited (s : Sub) : bool :=
  match reader s with RExited => true | _ => false end.

(** The read loop is returning or has returned. *)
Definition reader_done (s : Sub) : bool :=
  match reader s with RDefer | RExited => true | _ => false end.

(** The read loop has seen [ReadMessage] fail, or has left its loop. *)
Definition reader_failed (s : Sub) : bool :=
  match reader s with
  | RSleeping _ | RSendErr _ | RDefer | RExited => true
  | _ => false
  end.

(** How many times the connection was closed. *)
Definition closes_of (evs : list Event) : nat :=
  length (omap (fun e => match e with EvConnClose => Some tt | _ => None end) evs).

(** How the connection, the handoff channel and the two loops end together. *)
Definition teardown_inv (s : Sub) : Prop :=
  conn_open s = negb (reader_exited s)
  /\ msgRead_closed s = reader_exited s
  /\ (relay s = PExited -> reader s = RExited)
  /\ closes_of (events s) = (if reader_exited s then 1 else 0).

(** Where the stop signal is: posted by [RunStream] when it returns nil, and
    taken by the read loop when it leaves through [case <-wsdp.done]. *)
Definition cancel_inv (s : Sub) : Prop :=
  match sup s with
  | SupSelect => done_chan s = [] /\ reader_done s = false
  | SupReturned None => done_chan s = (if reader_done s then [] else [true])
  | _ => done_chan s = []
  end.

(** The messages the read loop can still receive once [RunStream] has
    returned nil. *)
Definition read_budget (s : Sub) : nat :=
  match reader s with RReading => 1 | _ => 0 end.

(** A path is rooted when it starts with a separator. *)
Definition rooted_path (s : string) : bool :=
  match s with
  | String c _ => GoPath.is_slash c
  | EmptyString => false
  end.

Definition rooted_bytes (l : list ascii) : bool :=
  match l with
  | c :: _ => GoPath.is_slash c
  | [] => false
  end.

(** No two consecutive separators. *)
Fixpoint no_double_slash (l : list ascii) : bool :=
  match l with
  | [] => true
  | c1 :: tl =>
      match tl with
      | c2 :: _ => negb (GoPath.is_slash c1 && GoPath.is_slash c2)
      | [] => true
      end && no_double_slash tl
  end.

(** The last byte is a separator. *)
Fixpoint ends_slash (l : list ascii) : bool :=
  match l with
  | [] => false
  | c :: tl =>
      match tl with
      | [] => GoPath.is_slash c
      | _ :: _ => ends_slash tl
      end
  end.

(** A path without empty segments: no repeated separator, and no trailing
    separator unless the path is "/" itself. *)
Definition clean_shape (s : string) : Prop :=
  no_double_slash (list_ascii_of_string s) = true
  /\ (ends_slash (list_ascii_of_string s) = true -> s = "/").

(** What [Clean]'s loop keeps of its output buffer [out] and of [dotdot]. *)
Definition clean_inv (rooted : bool) (out : list ascii) (dotdot : nat) : Prop :=
  no_double_slash out = true
  /\ (ends_slash out = true -> rooted = true /\ out = [GoPath.slash])
  /\ dotdot <= length out
  /\ (if rooted
      then dotdot = 1 /\ rooted_bytes out = true
      else dotdot = 0
           \/ GoPath.is_slash (nth (dotdot - 1) out GoPath.slash) = false).

(** * Further sample inputs *)

(** Decoded settings with structured headers only; one header is empty. *)
Definition raw_structured : gmap string models.any :=
  {[ "path" := models.AString "/ws";
     "headers" := models.AMap {[ "X-A" := models.AString "v";
                                 "X-Empty" := models.AString "" ]} ]}.

(** [RunStream] against an upstream that refuses every handshake with a 403
    and the body " denied ". *)
Definition RunStream403 : RunStreamRequest -> M RunResult :=
  RunStream iter0 string inl (fun _ => "") URL_set0 (fun u => u) (fun _ => "")
            (fun b => b)
            (fun _ _ => DialErr "bad handshake"
                          (Some (mkResponse 403 "403 Forbidden" (Some " denied ")))).

(** A run that ends after a read failure, one that is cancelled while the
    read loop is inside [ReadMessage], and what follows the cancellation. *)
Definition acts_cancel : list Action := [AReaderSelect; ACancel; ASupDone].

Definition acts_late : list Action :=
  [ARead (inl "late"); AHandoff; ARelaySend; AReaderSelect; AReaderDefer].


(** * Properties *)

(** ** Loops over maps *)

Section RangeFacts.

Context {V : Type}.

(** Storing every entry of an enumeration without repeated keys: the stored
    entries win over the old contents, whatever the order. *)
Lemma foldl_insert_lookup (kvs : list (string * V)) :
  forall (acc : gmap string V) (k : string),
    NoDup kvs.*1 ->
    foldl (fun acc kv => <[kv.1 := kv.2]> acc) acc kvs !! k
    = match (list_to_map kvs : gmap string V) !! k with
      | Some v => Some v
      | None => acc !! k
      end.
Proof.
  induction kvs as [|[k1 v1] kvs IH]; intros acc k Hnd; simpl.
  - by rewrite lookup_empty.
  - apply NoDup_cons in Hnd as [Hnotin Hnd].
    rewrite IH by done.
    destruct (decide (k1 = k)) as [->|Hne].
    + rewrite lookup_insert_eq.
      rewrite (not_elem_of_list_to_map_1 kvs k Hnotin).
      by rewrite lookup_insert_eq.
    + by rewrite !lookup_insert_ne.
Qed.

Lemma foldl_insert_range (iter : map_iter) (m acc : gmap string V) :
  range_ok iter ->
  foldl (fun acc kv => <[kv.1 := kv.2]> acc) acc (iter V m) = m ∪ acc.
Proof.
  intros Hiter. apply map_eq. intros k.
  assert (Hnd : NoDup (iter V m).*1).
  { rewrite (Hiter V m). apply NoDup_fst_map_to_list. }
  rewrite foldl_insert_lookup by done.
  rewrite (list_to_map_proper (iter V m) (map_to_list m) Hnd (Hiter V m)).
  rewrite list_to_map_to_list, lookup_union.
  destruct (m !! k), (acc !! k); done.
Qed.

End RangeFacts.

Lemma range_ok_map_to_list : range_ok (fun V => map_to_list).
Proof. intros V m. reflexivity. Qed.

(** ** The channel registry and the query dispatcher *)

Section RegistryFacts.

Variable iter : map_iter.

Lemma forM_store (l : loc) (kvs : list (string * string)) :
  forall (w : World) (m0 : gmap string string),
    maps w !! l = Some m0 ->
    forM_ kvs (fun kv => map_store l kv.1 kv.2) w
    = (tt, mkWorld (<[l := store_all m0 kvs]> (maps w)) (wsds w) (trace w)).
Proof.
  induction kvs as [|[k v] kvs IH]; intros w m0 Hl; simpl.
  - unfold ret. destruct w as [mp d t]; simpl in *. by rewrite insert_id.
  - unfold bind at 1. unfold map_store at 1. rewrite Hl. simpl.
    erewrite IH; [|simpl; apply lookup_insert_eq].
    simpl. by rewrite insert_insert_eq.
Qed.

(** What [mergeQueryParams] computes: a map object that did not exist
    before, filled from the defaults and then from the query's parameters;
    nothing else changes. *)
Lemma mergeQueryParams_unfold (queryParams : gmap string string) (w : World) :
  mergeQueryParams iter queryParams w
  = (fresh (dom (maps w)),
     mkWorld
       (<[fresh (dom (maps w)) :=
            store_all (store_all ∅ (iter _ (defaults_of w))) (iter _ queryParams)]>
          (maps w))
       (wsds w) (trace w)).
Proof.
  unfold mergeQueryParams, range_map, read_map, get_ds, new_map, bind, ret.
  set (l := fresh (dom (maps w))).
  assert (Hfresh : maps w !! l = None).
  { apply not_elem_of_dom. apply is_fresh. }
  simpl.
  assert (Hdef : default ∅ (<[l:=∅]> (maps w) !! customQueryParameters (wsds w))
                 = defaults_of w).
  { unfold defaults_of.
    destruct (decide (l = customQueryParameters (wsds w))) as [<-|Hne].
    - by rewrite lookup_insert_eq, Hfresh.
    - by rewrite lookup_insert_ne. }
  rewrite Hdef.
  erewrite forM_store; [|simpl; apply lookup_insert_eq].
  erewrite forM_store; [|simpl; apply lookup_insert_eq].
  simpl. by rewrite !insert_insert_eq.
Qed.

Lemma mergeQueryParams_union (queryParams : gmap string string) (w : World) :
  range_ok iter ->
  mergeQueryParams iter queryParams w
  = (fresh (dom (maps w)),
     mkWorld (<[fresh (dom (maps w)) := queryParams ∪ defaults_of w]> (maps w))
             (wsds w) (trace w)).
Proof.
  intros Hiter. rewrite mergeQueryParams_unfold. unfold store_all.
  rewrite !foldl_insert_range by done.
  by rewrite (right_id_L ∅ (∪)).
Qed.

End RegistryFacts.

Section MergeClaim.

Variable iter : map_iter.
Hypothesis iter_ok : range_ok iter.

(** C7 (merge rule).  For every instance-default parameter map and every
    per-query parameter map, the map [mergeQueryParams] returns holds
    exactly the keys of either input, with the per-query value on every
    key the query defines and the default's value elsewhere; defaults
    {a:"1", b:"2"} merged with query {b:"3", c:"4"} give
    {a:"1", b:"3", c:"4"}. *)
Theorem mergeQueryParams_query_wins
    (queryParams : gmap string string) (w : World) :
  let '(merged, w') := mergeQueryParams iter queryParams w in
  let result := default ∅ (maps w' !! merged) in
  maps w' !! merged = Some (queryParams ∪ defaults_of w)
  /\ dom result = dom queryParams ∪ dom (defaults_of w)
  /\ (forall k v, queryParams !! k = Some v -> result !! k = Some v)
  /\ (forall k, queryParams !! k = None -> result !! k = defaults_of w !! k)
  /\ (defaults_of w = {[ "a" := "1"; "b" := "2" ]} ->
      queryParams = {[ "b" := "3"; "c" := "4" ]} ->
      result = {[ "a" := "1"; "b" := "3"; "c" := "4" ]}).
Proof.
  rewrite mergeQueryParams_union by exact iter_ok.
  cbv zeta. simpl maps. rewrite lookup_insert_eq. simpl.
  split; [done|].
  split; [by rewrite dom_union_L|].
  split; [intros k v Hk; by apply lookup_union_Some_l|].
  split; [intros k Hk; by apply lookup_union_r|].
  intros -> ->. apply map_eq. intros k. rewrite lookup_union.
  destruct (decide (k = "a")) as [->|Ha]; [done|].
  destruct (decide (k = "b")) as [->|Hb]; [done|].
  destruct (decide (k = "c")) as [->|Hc]; [done|].
  by rewrite !lookup_insert_ne, !lookup_singleton_ne.
Qed.

End MergeClaim.

Lemma mergeQueryParams_query_wins_witness :
  range_ok iter0
  /\ let '(merged, w') :=
       mergeQueryParams iter0 {[ "b" := "3"; "c" := "4" ]} world_ab in
     default ∅ (maps w' !! merged) = {[ "a" := "1"; "b" := "3"; "c" := "4" ]}.
Proof.
  split; [exact range_ok_map_to_list|].
  pose proof (mergeQueryParams_query_wins iter0 range_ok_map_to_list
                {[ "b" := "3"; "c" := "4" ]} world_ab) as H.
  destruct (mergeQueryParams iter0 {[ "b" := "3"; "c" := "4" ]} world_ab)
    as [merged w'].
  destruct H as (_ & _ & _ & _ & H).
  apply H; reflexivity.
Defined.

(** ** Registration *)

(** C8 (last write wins).  After the same channel identifier is registered
    twice, a lookup finds the second config and nothing of the first: the
    registry is the one the second registration alone would have left. *)
Theorem setChannelConfig_last_write_wins
    (channelPath basePath1 basePath2 : string) (params1 params2 : loc)
    (w : World) :
  let w1 := (setChannelConfig channelPath basePath1 params1 w).2 in
  let w2 := (setChannelConfig channelPath basePath2 params2 w1).2 in
  (getChannelConfig channelPath w2).1 = Some (mkChannelConfig basePath2 params2)
  /\ w2 = (setChannelConfig channelPath basePath2 params2 w).2.
Proof.
  unfold setChannelConfig, getChannelConfig, bind, get_ds, ret. simpl.
  split; [apply lookup_insert_eq|].
  by rewrite insert_insert_eq.
Qed.

(** Registration writes one registry entry and nothing else. *)
Lemma setChannelConfig_frame
    (channelPath basePath : string) (params : loc) (w : World) :
  let w' := (setChannelConfig channelPath basePath params w).2 in
  maps w' = maps w
  /\ trace w' = trace w
  /\ customHeaders (wsds w') = customHeaders (wsds w)
  /\ customQueryParameters (wsds w') = customQueryParameters (wsds w)
  /\ channelConfigs (wsds w')
     = <[channelPath := mkChannelConfig basePath params]> (channelConfigs (wsds w)).
Proof. done. Qed.

(** C9 (publishing is refused).  Every publish request, whatever its payload
    and channel and whatever the state of the instance, is answered with the
    permission-denied status and no error, and leaves the maps, the registry
    and the trace of events as they were. *)
Theorem PublishStream_permission_denied (req : PublishStreamRequest) (w : World) :
  PublishStream req w
  = ((mkPublishStreamResponse PublishStreamStatusPermissionDenied "", None), w).
Proof. reflexivity. Qed.

(** ** Query handling leaves the existing state alone *)

Section FrameFacts.

Variable json_Unmarshal : string -> queryModel + string.
Variable iter : map_iter.

Lemma preserves_refl (written : string -> Prop) (w : World) :
  preserves written w w.
Proof. by repeat split. Qed.

Lemma preserves_dom (written : string -> Prop) (w w' : World) :
  preserves written w w' -> dom (maps w) ⊆ dom (maps w').
Proof.
  intros (Hm & _) l Hl. apply elem_of_dom. rewrite (Hm l Hl).
  by apply elem_of_dom.
Qed.

Lemma preserves_trans (wr1 wr2 wr : string -> Prop) (w1 w2 w3 : World) :
  (forall k, wr1 k -> wr k) -> (forall k, wr2 k -> wr k) ->
  preserves wr1 w1 w2 -> preserves wr2 w2 w3 -> preserves wr w1 w3.
Proof.
  intros H1 H2 P12 P23.
  pose proof (preserves_dom _ _ _ P12) as Hdom.
  destruct P12 as (Hm1 & Hh1 & Hq1 & Ht1 & Hc1).
  destruct P23 as (Hm2 & Hh2 & Hq2 & Ht2 & Hc2).
  repeat split; try congruence.
  - intros l Hl. rewrite Hm2 by (apply Hdom, Hl). by apply Hm1.
  - intros k Hk. rewrite Hc2 by (intros ?; apply Hk; auto).
    apply Hc1. intros ?; apply Hk; auto.
Qed.

Lemma preserves_view (written : string -> Prop) (w w' : World) (k : string) :
  instance_wf w -> preserves written w w' -> ~ written k ->
  config_view w' k = config_view w k.
Proof.
  intros [_ Hwf] (Hm & _ & _ & _ & Hc) Hk. unfold config_view.
  rewrite (Hc k Hk).
  destruct (channelConfigs (wsds w) !! k) as [cfg|] eqn:E; [|done].
  by rewrite (Hm _ (Hwf k cfg E)).
Qed.

Lemma preserves_defaults (written : string -> Prop) (w w' : World) :
  instance_wf w -> preserves written w w' -> defaults_of w' = defaults_of w.
Proof.
  intros [Hq _] (Hm & _ & Hq' & _). unfold defaults_of.
  rewrite Hq'. by rewrite (Hm _ Hq).
Qed.

Lemma mergeQueryParams_preserves (queryParams : gmap string string) (w : World) :
  let '(merged, w') := mergeQueryParams iter queryParams w in
  (merged ∉ dom (maps w))
  /\ (merged ∈ dom (maps w'))
  /\ wsds w' = wsds w
  /\ preserves (fun _ => False) w w'.
Proof.
  rewrite mergeQueryParams_unfold.
  pose proof (is_fresh (dom (maps w))) as Hfresh.
  split; [done|]. simpl.
  split; [apply elem_of_dom; rewrite lookup_insert_eq; eauto|].
  split; [done|].
  repeat split; simpl.
  intros l Hl. rewrite lookup_insert_ne; [done|].
  intros <-. by apply Hfresh.
Qed.

Lemma query_preserves (pCtx : PluginContext) (q : DataQuery) (w : World) :
  let w' := (query json_Unmarshal iter pCtx q w).2 in
  preserves
    (fun k => exists qm, json_Unmarshal (JSON q) = inl qm /\ k = channel_key qm q)
    w w'
  /\ (instance_wf w -> instance_wf w').
Proof.
  cbv zeta. unfold query.
  destruct (json_Unmarshal (JSON q)) as [qm|err] eqn:E.
  2:{ simpl. split; [apply preserves_refl|done]. }
  unfold bind, ret, setChannelConfig.
  pose proof (mergeQueryParams_preserves (QueryParams qm) w) as Hmerge.
  destruct (mergeQueryParams iter (QueryParams qm) w) as [merged w1].
  destruct Hmerge as (Hfresh & Hlive & Hds & Hm & Hh & Hq & Ht & Hc).
  simpl.
  split.
  - repeat split; simpl; try done.
    intros k Hk. rewrite lookup_insert_ne.
    + apply Hc. tauto.
    + intros <-. apply Hk. exists qm. done.
  - intros [Hwq Hwc]. split; simpl.
    + rewrite Hq. apply elem_of_dom. rewrite (Hm _ Hwq). by apply elem_of_dom.
    + intros k cfg. rewrite lookup_insert.
      case_decide as Hk.
      * intros [= <-]. done.
      * rewrite Hds. intros Hcfg.
        apply elem_of_dom. rewrite (Hm _ (Hwc k cfg Hcfg)).
        apply elem_of_dom. eauto.
Qed.

Lemma QueryData_loop_preserves (pCtx : PluginContext) (queries : list DataQuery) :
  forall (responses : gmap string DataResponse) (w : World),
    let w' := (QueryData_loop json_Unmarshal iter pCtx queries responses w).2 in
    preserves
      (fun k => exists q qm, q ∈ queries /\ json_Unmarshal (JSON q) = inl qm
                             /\ k = channel_key qm q)
      w w'
    /\ (instance_wf w -> instance_wf w').
Proof.
  induction queries as [|q queries IH]; intros responses w; simpl.
  - split; [apply preserves_refl|done].
  - unfold bind.
    pose proof (query_preserves pCtx q w) as [Hq Hwf].
    destruct (query json_Unmarshal iter pCtx q w) as [res w1]. simpl in *.
    specialize (IH (<[RefID q := res]> responses) w1).
    destruct IH as [IH IHwf].
    split; [|tauto].
    eapply preserves_trans; [| |exact Hq|exact IH].
    + intros k (qm & ? & ?). exists q, qm. split; [left|done].
    + intros k (q' & qm & ? & ?). exists q', qm. split; [by right|done].
Qed.

End FrameFacts.

(** C10 (frame).  [mergeQueryParams] returns a map object that did not exist
    before and changes no existing map; [setChannelConfig] changes the
    registry entry it writes and nothing else; and so a whole batch of
    queries leaves every existing map object, the instance's global default
    parameters and every channel config stored under a key the batch does
    not write, as they were. *)
Theorem registration_leaves_existing_state
    (json_Unmarshal : string -> queryModel + string) (iter : map_iter)
    (req : QueryDataRequest) (w : World) :
  instance_wf w ->
  (forall queryParams,
      let '(merged, w1) := mergeQueryParams iter queryParams w in
      (merged ∉ dom (maps w))
      /\ preserves (fun _ => False) w w1
      /\ defaults_of w1 = defaults_of w
      /\ (forall k, config_view w1 k = config_view w k))
  /\ (forall channelPath basePath params,
      let w1 := (setChannelConfig channelPath basePath params w).2 in
      preserves (fun k => k = channelPath) w w1
      /\ maps w1 = maps w
      /\ defaults_of w1 = defaults_of w
      /\ (forall k, k <> channelPath -> config_view w1 k = config_view w k))
  /\ (let w' := (QueryData json_Unmarshal iter req w).2 in
      preserves (written_by json_Unmarshal (Queries req)) w w'
      /\ defaults_of w' = defaults_of w
      /\ (forall k, ~ written_by json_Unmarshal (Queries req) k ->
                    config_view w' k = config_view w k)
      /\ instance_wf w').
Proof.
  intros Hwf. split; [|split].
  - intros queryParams.
    pose proof (mergeQueryParams_preserves iter queryParams w) as H.
    destruct (mergeQueryParams iter queryParams w) as [merged w1].
    destruct H as (Hfresh & _ & _ & Hpres).
    split; [done|]. split; [done|].
    split; [by eapply preserves_defaults|].
    intros k. eapply preserves_view; eauto.
  - intros channelPath basePath params.
    assert (Hpres : preserves (fun k => k = channelPath) w
                      (setChannelConfig channelPath basePath params w).2).
    { repeat split; simpl. intros k Hk. by rewrite lookup_insert_ne. }
    cbv zeta. split; [done|]. split; [done|].
    split; [by eapply preserves_defaults|].
    intros k Hk. eapply preserves_view; eauto.
  - cbv zeta. unfold QueryData, bind, ret.
    pose proof (QueryData_loop_preserves json_Unmarshal iter
                  (QPluginContext req) (Queries req) ∅ w) as [Hpres Hwf'].
    destruct (QueryData_loop json_Unmarshal iter (QPluginContext req)
                (Queries req) ∅ w) as [responses w'].
    simpl in *.
    split; [done|].
    split; [by eapply preserves_defaults|].
    split; [|tauto].
    intros k Hk. eapply preserves_view; eauto.
Qed.

Lemma instance_wf_world_reg : instance_wf world_reg.
Proof.
  split.
  - apply elem_of_dom. by eexists.
  - intros k cfg Hk. simpl in Hk.
    apply lookup_singleton_Some in Hk as [_ <-].
    apply elem_of_dom. by eexists.
Qed.

Lemma registration_leaves_existing_state_witness :
  instance_wf world_reg
  /\ config_view (QueryData json_bar iter0 req_bar world_reg).2 "foo/A"
     = Some ("foo", {[ "token" := "t0" ]}).
Proof.
  split; [exact instance_wf_world_reg|].
  pose proof (registration_leaves_existing_state json_bar iter0 req_bar
                world_reg instance_wf_world_reg) as (_ & _ & H).
  cbv zeta in H. destruct H as (_ & _ & H & _).
  rewrite H; [reflexivity|].
  intros (q & qm & Hq & Hqm & Hk).
  apply list_elem_of_singleton in Hq. subst q.
  injection Hqm as <-. vm_compute in Hk. discriminate Hk.
Defined.

(** ** Starting a stream *)

Section StartFacts.

Variable iter : map_iter.
Variable URL : Type.
Variable url_Parse : string -> URL + string.
Variable URL_Path : URL -> string.
Variable URL_set : URL -> string -> string -> URL.
Variable URL_String : URL -> string.
Variable Values_Encode : list (string * string) -> string.
Variable strings_TrimSpace : string -> string.
Variable Dial : string -> list (string * string) -> DialResult.

Local Abbreviation RunStream' :=
  (RunStream iter URL url_Parse URL_Path URL_set URL_String Values_Encode
             strings_TrimSpace Dial).

(** C4 (missing channel config).  A stream run for a channel path that has
    no registry entry returns the error "no channel config found for
    <path>", sends exactly one frame, the error frame with that message,
    and dials nothing; the outcome does not depend on the URL library or on
    the network. *)
Theorem RunStream_missing_config (req : RunStreamRequest) (w : World) :
  channelConfigs (wsds w) !! RPath req = None ->
  let err := "no channel config found for " +:+ RPath req in
  let '(result, w') := RunStream' req w in
  result = Returned (Some err)
  /\ trace w' = trace w ++ [EvSendFrame (mkFrame "error" [mkField "error" [err]] None)]
  /\ frames_of (trace w')
     = frames_of (trace w) ++ [mkFrame "error" [mkField "error" [err]] None]
  /\ dials_of (trace w') = dials_of (trace w)
  /\ maps w' = maps w /\ wsds w' = wsds w.
Proof.
  intros Hnone. cbv zeta.
  unfold RunStream, getChannelConfig, get_ds, sendErrorFrame, emit, bind, ret.
  rewrite Hnone. simpl.
  split; [done|]. split; [done|].
  unfold frames_of, dials_of. rewrite !omap_app. simpl.
  split; [done|]. split; [by rewrite (right_id_L [] (++))|done].
Qed.

(** A stream that starts running starts from [start_sub None]: [err] is nil
    when [RunStream] reaches its select. *)
Lemma RunStream_running (req : RunStreamRequest) (w w' : World) (s : Sub) :
  RunStream' req w = (Running s, w') -> s = start_sub None.
Proof.
  unfold RunStream, getChannelConfig, get_ds, sendErrorFrame, emit, bind, ret.
  destruct (channelConfigs (wsds w) !! RPath req) as [cfg|]; [|discriminate].
  destruct (NewWsDataProxy _ _ _ _ _ _ _ _ _ _ _ w) as [[url|e] w1]; simpl.
  - by intros [= <- _].
  - discriminate.
Qed.

End StartFacts.

(** ** A running subscription *)

Section SubFacts.

Lemma frames_of_app (evs1 evs2 : list Event) :
  frames_of (evs1 ++ evs2) = frames_of evs1 ++ frames_of evs2.
Proof. apply omap_app. Qed.

Lemma sub_inv_start : sub_inv (start_sub None).
Proof.
  repeat split; simpl; try done.
  intros f Hf. by apply elem_of_nil in Hf.
Qed.

Ltac step_cases Hstep :=
  simpl in Hstep;
  repeat match type of Hstep with
         | context [match ?x with _ => _ end] => destruct x eqn:?; simpl in Hstep
         end;
  try discriminate Hstep;
  try (injection Hstep as <-).

Lemma step_inv (a : Action) (s s' : Sub) :
  sub_inv s -> step a s = Some s' -> sub_inv s'.
Proof.
  intros (Herr & Hframe & Hclosed & Hexit & Hconn & Hsup & Hfr) Hstep.
  destruct s as [su se rd rl rf dc mc cd co ev]; simpl in *.
  destruct a; unfold step, RunStream_ctx_done in Hstep; step_cases Hstep;
    unfold sub_inv, RunStream_readingErrors, proxyMessage_body,
      readMessage_defer; simpl in *; subst;
    repeat split; simpl; try done; try (intros; congruence);
    try (intros f Hf; rewrite frames_of_app in Hf; simpl in Hf;
         rewrite ?(right_id_L [] (++)) in Hf;
         try (apply elem_of_app in Hf as [Hf|Hf];
              [|apply list_elem_of_singleton in Hf; subst f; reflexivity]);
         by apply Hfr);
    intros Hx;
    first [ specialize (Hclosed Hx); discriminate Hclosed
          | specialize (Hconn Hx); discriminate Hconn ].
Qed.

Lemma step_frames (a : Action) (s s' : Sub) :
  sub_inv s ->
  step a s = Some s' ->
  frames_of (events s') ++ map responseFrame (pending s')
  = frames_of (events s) ++ map responseFrame (pending s)
    ++ map responseFrame (received [a]).
Proof.
  intros (Herr & Hframe & _) Hstep.
  destruct s as [su se rd rl rf dc mc cd co ev]; simpl in *. subst rf se.
  destruct a; unfold step, RunStream_ctx_done in Hstep; step_cases Hstep;
    unfold pending, received, RunStream_readingErrors, proxyMessage_body,
      readMessage_defer; simpl;
    rewrite ?frames_of_app; simpl;
    rewrite ?(right_id_L [] (++)); try reflexivity;
    try (destruct rl; reflexivity);
    try (destruct rd; simpl; rewrite <- ?(assoc_L (++)); reflexivity).
Qed.

Lemma run_app (acts1 acts2 : list Action) (s : Sub) :
  run (acts1 ++ acts2) s
  = match run acts1 s with Some s1 => run acts2 s1 | None => None end.
Proof.
  revert s. induction acts1 as [|a acts1 IH]; intros s; simpl; [done|].
  destruct (step a s); [apply IH|done].
Qed.

Lemma received_app (acts1 acts2 : list Action) :
  received (acts1 ++ acts2) = received acts1 ++ received acts2.
Proof. apply omap_app. Qed.

Lemma run_inv (acts : list Action) :
  forall s s', sub_inv s -> run acts s = Some s' -> sub_inv s'.
Proof.
  induction acts as [|a acts IH]; intros s s' Hinv Hrun; simpl in Hrun.
  - by injection Hrun as <-.
  - destruct (step a s) as [s1|] eqn:Hstep; [|discriminate].
    eapply IH; [|exact Hrun]. eapply step_inv; eauto.
Qed.

(** Relay is in order and loses nothing: what was sent, followed by what is
    pending, is what was received. *)
Lemma run_frames (acts : list Action) :
  forall s s', sub_inv s -> run acts s = Some s' ->
    frames_of (events s') ++ map responseFrame (pending s')
    = frames_of (events s) ++ map responseFrame (pending s)
      ++ map responseFrame (received acts).
Proof.
  induction acts as [|a acts IH]; intros s s' Hinv Hrun; simpl in Hrun.
  - injection Hrun as <-. simpl. by rewrite (right_id_L [] (++)).
  - destruct (step a s) as [s1|] eqn:Hstep; [|discriminate].
    rewrite (IH s1 s' (step_inv _ _ _ Hinv Hstep) Hrun).
    rewrite (assoc_L (++)).
    rewrite (step_frames a s s1 Hinv Hstep).
    change (a :: acts) with ([a] ++ acts).
    rewrite received_app, map_app. by rewrite <- !(assoc_L (++)).
Qed.

(** Whatever is pending can be sent by the two loops on their own. *)
Lemma flush_sends (s : Sub) :
  sub_inv s ->
  exists s', run (flush s) s = Some s'
             /\ pending s' = []
             /\ forallb internal (flush s) = true
             /\ received (flush s) = [].
Proof.
  intros (Herr & Hframe & Hclosed & Hexit & Hconn & Hsup & Hfr).
  destruct s as [su se rd rl rf dc mc cd co ev]; simpl in *.
  unfold flush; simpl.
  destruct rl as [|m|]; destruct rd as [| | | |m'| |]; simpl;
    try (eexists; repeat split; reflexivity);
    try (destruct mc; [specialize (Hclosed eq_refl); discriminate Hclosed|];
         eexists; repeat split; reflexivity).
  specialize (Hclosed (Hexit eq_refl)). discriminate Hclosed.
Qed.

End SubFacts.

(** A state in which no activity can move stays as it is until the caller or
    the upstream acts. *)
Lemma run_quiescent (s s' : Sub) (acts : list Action) :
  (forall a, internal a = true -> step a s = None) ->
  forallb internal acts = true ->
  run acts s = Some s' -> s' = s.
Proof.
  intros Hstuck Hint Hrun. destruct acts as [|a acts]; simpl in *.
  - by injection Hrun as <-.
  - apply andb_prop in Hint as [Ha _]. by rewrite (Hstuck a Ha) in Hrun.
Qed.

Lemma cancel_run (se : error) (cd : bool) (ev : list Event) :
  run [ACancel; ASupDone]
      (mkSub SupSelect se RReading PRecv (NewFrame "response") [] false cd true ev)
  = Some (mkSub (SupReturned None) se RReading PRecv (NewFrame "response")
                [true] false true true ev).
Proof. reflexivity. Qed.

Lemma cancelled_stuck (se : error) (ev : list Event) (a : Action) :
  internal a = true ->
  step a (mkSub (SupReturned None) se RReading PRecv (NewFrame "response")
                [true] false true true ev) = None.
Proof. intros Ha. destruct a; simpl in *; try discriminate; reflexivity. Qed.

Lemma cancelled_message_run (se : error) (ev : list Event) (m : string) :
  run [ARead (inl m); AHandoff; ARelaySend; AReaderSelect; AReaderDefer;
       ARelayClosed]
      (mkSub (SupReturned None) se RReading PRecv (NewFrame "response")
             [true] false true true ev)
  = Some (mkSub (SupReturned None) se RExited PExited (NewFrame "response")
                [] true true false
                ((ev ++ [EvSendFrame (responseFrame m)]) ++ [EvConnClose])).
Proof. reflexivity. Qed.

Lemma cancel_idle (s : Sub) :
  idle s ->
  exists s1,
    run [ACancel; ASupDone] s = Some s1
    /\ sup s1 = SupReturned None
    /\ events s1 = events s
    /\ done_chan s1 = [true]
    /\ conn_open s1 = true
    /\ reader s1 = RReading
    /\ relay s1 = PRecv
    /\ (forall a, internal a = true -> step a s1 = None)
    /\ (forall m, exists s2,
          run [ARead (inl m); AHandoff; ARelaySend; AReaderSelect;
               AReaderDefer; ARelayClosed] s1 = Some s2
          /\ conn_open s2 = false
          /\ reader s2 = RExited
          /\ relay s2 = PExited
          /\ events s2
             = events s ++ [EvSendFrame (mkFrame "response" [mkField "data" [m]] None);
                            EvConnClose]).
Proof.
  intros (Hsup & Hrd & Hrl & Hdc & Hco & Hmc & Hrf).
  destruct s as [su se rd rl rf dc mc cd co ev].
  cbn [sup reader relay done_chan conn_open msgRead_closed relay_frame] in *.
  subst.
  eexists. split; [apply cancel_run|].
  cbn [sup reader relay done_chan conn_open events].
  do 6 (split; [reflexivity|]).
  split; [apply cancelled_stuck|].
  intros m. eexists. split; [apply cancelled_message_run|].
  cbn [reader relay conn_open events].
  do 3 (split; [reflexivity|]).
  by rewrite <- (assoc_L (++)).
Qed.

Section StreamClaims.

Variable iter : map_iter.
Variable URL : Type.
Variable url_Parse : string -> URL + string.
Variable URL_Path : URL -> string.
Variable URL_set : URL -> string -> string -> URL.
Variable URL_String : URL -> string.
Variable Values_Encode : list (string * string) -> string.
Variable strings_TrimSpace : string -> string.
Variable Dial : string -> list (string * string) -> DialResult.

Local Abbreviation RunStream' :=
  (RunStream iter URL url_Parse URL_Path URL_set URL_String Values_Encode
             strings_TrimSpace Dial).

(** C5 (in-order relay).  On a started subscription, whatever the
    interleaving of the activities: when the connection has delivered the
    messages M1, M2, M3 in that order, the frames sent are an initial part of
    the three "response" frames for M1, M2, M3, in that order, each with the
    single field [data] holding the message's text as received; they are all
    three as soon as nothing is pending at the handoff or in the relay loop,
    and the two loops can always get there on their own. *)
Theorem relay_in_order
    (req : RunStreamRequest) (w w' : World) (s0 s : Sub)
    (M1 M2 M3 : string) (acts : list Action) :
  RunStream' req w = (Running s0, w') ->
  run acts s0 = Some s ->
  received acts = [M1; M2; M3] ->
  let F := fun M => mkFrame "response" [mkField "data" [M]] None in
  (exists n, frames_of (events s) = take n [F M1; F M2; F M3])
  /\ (pending s = [] -> frames_of (events s) = [F M1; F M2; F M3])
  /\ (exists s', run (flush s) s = Some s'
                 /\ forallb internal (flush s) = true
                 /\ frames_of (events s') = [F M1; F M2; F M3]).
Proof.
  intros Hstart Hrun Hrecv F.
  apply RunStream_running in Hstart. subst s0.
  pose proof (run_inv _ _ _ sub_inv_start Hrun) as Hinv.
  assert (Hfr : frames_of (events s) ++ map responseFrame (pending s)
                = [F M1; F M2; F M3]).
  { rewrite (run_frames _ _ _ sub_inv_start Hrun), Hrecv. reflexivity. }
  split; [|split].
  - exists (length (frames_of (events s))).
    rewrite <- Hfr. by rewrite take_app_length.
  - intros Hp. rewrite Hp in Hfr. cbn [map] in Hfr.
    by rewrite (right_id_L [] (++)) in Hfr.
  - destruct (flush_sends s Hinv) as (s' & Hflush & Hp & Hint & Hnone).
    exists s'. split; [done|]. split; [done|].
    pose proof (run_frames _ _ _ Hinv Hflush) as Hfr'.
    rewrite Hp, Hnone in Hfr'. cbn [map] in Hfr'.
    rewrite !(right_id_L [] (++)) in Hfr'. congruence.
Qed.

(** C1 (read failure), as the code has it.  On a started subscription a
    receive failure is followed by the 3-second sleep and then by
    [RunStream] taking the read error from [readingErrors]; there it calls
    [Error()] on its own nil [err] and panics: no error frame is sent and
    the read error is not returned.  Indeed no run of a started subscription
    ever sends a frame that is not a "response" frame, and none ends with
    [RunStream] returning an error. *)
Theorem RunStream_read_failure_panics
    (req : RunStreamRequest) (w w' : World) (s0 : Sub) :
  RunStream' req w = (Running s0, w') ->
  (forall e, exists s,
      run [AReaderSelect; ARead (inr e); AReaderSleep; ASupReadErr] s0 = Some s
      /\ sup s = SupPanicked
      /\ events s = [EvSleep 3]
      /\ frames_of (events s) = [])
  /\ (forall acts s, run acts s0 = Some s ->
        (forall f, f ∈ frames_of (events s) -> Name f = "response")
        /\ (forall e, sup s <> SupReturned (Some e))).
Proof.
  intros Hstart. apply RunStream_running in Hstart. subst s0.
  split.
  - intros e. eexists. split; [reflexivity|]. by repeat split.
  - intros acts s Hrun.
    destruct (run_inv _ _ _ sub_inv_start Hrun) as (_ & _ & _ & _ & _ & Hsup & Hfr).
    by split.
Qed.

End StreamClaims.

(** C3 (cancelling an idle subscription), as the code has it.  When an idle
    subscription is cancelled, [RunStream] posts the stop signal and returns
    nil, sending no frame; it does not close the connection, and no activity
    can move until [ReadMessage] returns.  When it returns a message, that
    message is still relayed as one more "response" frame; then the read
    loop sees the stop signal, closes the connection and the handoff, and
    the relay loop ends. *)
Theorem cancel_idle_posts_signal_only (s : Sub) :
  idle s ->
  exists s1,
    run [ACancel; ASupDone] s = Some s1
    /\ sup s1 = SupReturned None
    /\ events s1 = events s
    /\ done_chan s1 = [true]
    /\ conn_open s1 = true
    /\ reader s1 = RReading
    /\ relay s1 = PRecv
    /\ (forall a, internal a = true -> step a s1 = None)
    /\ (forall m, exists s2,
          run [ARead (inl m); AHandoff; ARelaySend; AReaderSelect;
               AReaderDefer; ARelayClosed] s1 = Some s2
          /\ conn_open s2 = false
          /\ reader s2 = RExited
          /\ relay s2 = PExited
          /\ events s2
             = events s ++ [EvSendFrame (mkFrame "response" [mkField "data" [m]] None);
                            EvConnClose]).
Proof. exact (cancel_idle s). Qed.

Lemma idle_idle_sub : idle idle_sub.
Proof. by repeat split. Qed.

(** The idle state is the one a started subscription is in once the read
    loop has entered [ReadMessage]. *)
Lemma idle_sub_reached : run [AReaderSelect] (start_sub None) = Some idle_sub.
Proof. reflexivity. Qed.

(** C3 as stated fails: after the cancellation of the idle subscription the
    connection stays open and both loops stay where they are. *)
Lemma cancel_idle_leaves_connection_open : ~ cancel_tears_down idle_sub.
Proof.
  intros (acts & s' & Hint & Hrun & Hconn & _).
  destruct (cancel_idle idle_sub idle_idle_sub)
    as (s1 & Hrun1 & _ & _ & _ & Hopen & _ & _ & Hstuck & _).
  change (ACancel :: ASupDone :: acts) with ([ACancel; ASupDone] ++ acts) in Hrun.
  rewrite run_app, Hrun1 in Hrun.
  rewrite (run_quiescent s1 s' acts Hstuck Hint Hrun) in Hconn.
  congruence.
Qed.

Lemma cancel_idle_posts_signal_only_witness :
  idle idle_sub
  /\ exists s1,
       run [ACancel; ASupDone] idle_sub = Some s1
       /\ conn_open s1 = true
       /\ reader s1 = RReading
       /\ relay s1 = PRecv
       /\ events s1 = [].
Proof.
  split; [exact idle_idle_sub|].
  destruct (cancel_idle_posts_signal_only idle_sub idle_idle_sub)
    as (s1 & Hrun & _ & Hev & _ & Hco & Hrd & Hrl & _).
  exists s1. repeat split; assumption.
Defined.

Lemma RunStream0_running :
  RunStream0 (req_stream "foo/A") world_reg
  = (Running (start_sub None), (RunStream0 (req_stream "foo/A") world_reg).2).
Proof. vm_compute. reflexivity. Qed.

Lemma RunStream_missing_config_witness :
  channelConfigs (wsds world_reg) !! "nope/A" = None
  /\ let '(result, w') := RunStream0 (req_stream "nope/A") world_reg in
     result = Returned (Some "no channel config found for nope/A")
     /\ frames_of (trace w')
        = [mkFrame "error"
             [mkField "error" ["no channel config found for nope/A"]] None]
     /\ dials_of (trace w') = [].
Proof.
  assert (Hnone : channelConfigs (wsds world_reg) !! RPath (req_stream "nope/A") = None)
    by reflexivity.
  split; [exact Hnone|].
  pose proof (RunStream_missing_config iter0 string inl (fun _ => "") URL_set0
                (fun u => u) (fun _ => "") (fun b => b) (fun _ _ => DialOk)
                (req_stream "nope/A") world_reg Hnone) as H.
  cbv zeta in H. fold RunStream0 in H.
  destruct (RunStream0 (req_stream "nope/A") world_reg) as [result w'].
  destruct H as (Hres & _ & Hfr & Hd & _).
  split; [exact Hres|]. split; [exact Hfr|exact Hd].
Defined.

Lemma run_acts_m123 : run acts_m123 (start_sub None) = Some sub_m123.
Proof. reflexivity. Qed.

Lemma relay_in_order_witness :
  run acts_m123 (start_sub None) = Some sub_m123
  /\ received acts_m123 = ["m1"; "m2"; "m3"]
  /\ frames_of (events sub_m123)
     = [mkFrame "response" [mkField "data" ["m1"]] None;
        mkFrame "response" [mkField "data" ["m2"]] None;
        mkFrame "response" [mkField "data" ["m3"]] None].
Proof.
  split; [exact run_acts_m123|]. split; [reflexivity|].
  pose proof (relay_in_order iter0 string inl (fun _ => "") URL_set0
                (fun u => u) (fun _ => "") (fun b => b) (fun _ _ => DialOk)
                (req_stream "foo/A") world_reg _ (start_sub None) sub_m123
                "m1" "m2" "m3" acts_m123
                RunStream0_running run_acts_m123 eq_refl) as H.
  cbv zeta in H. destruct H as (_ & H & _).
  apply H. reflexivity.
Defined.

Lemma RunStream_read_failure_panics_witness :
  exists s,
    run [AReaderSelect; ARead (inr "unexpected EOF"); AReaderSleep; ASupReadErr]
        (start_sub None) = Some s
    /\ sup s = SupPanicked
    /\ frames_of (events s) = [].
Proof.
  pose proof (RunStream_read_failure_panics iter0 string inl (fun _ => "")
                URL_set0 (fun u => u) (fun _ => "") (fun b => b)
                (fun _ _ => DialOk)
                (req_stream "foo/A") world_reg _ (start_sub None)
                RunStream0_running) as [H _].
  destruct (H "unexpected EOF") as (s & Hrun & Hsup & _ & Hfr).
  exists s. split; [exact Hrun|]. split; [exact Hsup|exact Hfr].
Defined.

(** ** Loading the settings *)

Section LoaderFacts.

Variable json_Unmarshal : string -> gmap string models.any + string.
Variable fmt_Sprint : models.any -> string.
Variable iter : map_iter.
Hypothesis iter_ok : range_ok iter.

Lemma iter_singleton {V : Type} (k : string) (v : V) :
  iter V {[ k := v ]} = [(k, v)].
Proof.
  apply Permutation_singleton_r. rewrite (iter_ok V).
  by rewrite map_to_list_singleton.
Qed.

Lemma iter_raw_overlap (name structured : string) :
  let e1 := ("headers", models.AMap {[ name := models.AString structured ]}) in
  let e2 := ("headerName1", models.AString name) in
  iter _ (raw_overlap name structured) = [e1; e2]
  \/ iter _ (raw_overlap name structured) = [e2; e1].
Proof.
  intros e1 e2. apply Permutation_length_2_inv.
  rewrite (iter_ok _). unfold raw_overlap.
  rewrite map_to_list_insert by done.
  by rewrite map_to_list_singleton.
Qed.

Lemma String_eqb_nonempty (name : string) :
  name <> "" -> String.eqb name "" = false.
Proof. by destruct name. Qed.

(** C2, as the code has it: where [headers] and [headerName1] define the same
    header, the loaded value is the legacy one, read from the secret
    [headerValue1] (the empty string when there is none), not the
    structured one. *)
Theorem LoadPluginSettings_legacy_overrides
    (source : models.DataSourceInstanceSettings) (name structured : string) :
  name <> "" ->
  json_Unmarshal (models.JSONData source) = inl (raw_overlap name structured) ->
  exists st,
    models.LoadPluginSettings json_Unmarshal fmt_Sprint iter source = inl st
    /\ models.Headers st !! name
       = Some (default "" (models.DecryptedSecureJSONData source !! "headerValue1")).
Proof.
  intros Hname Hjson. unfold models.LoadPluginSettings. rewrite Hjson.
  eexists. split; [reflexivity|].
  assert (Hh : models.raw_get (raw_overlap name structured) "headers"
               = models.AMap {[ name := models.AString structured ]}) by reflexivity.
  assert (Hq : models.raw_get (raw_overlap name structured) "queryParameters"
               = models.ANil) by reflexivity.
  rewrite Hh, Hq. unfold range at 2. rewrite iter_singleton.
  cbn [foldl fst snd]. unfold range.
  assert (Hskip : forall st,
             models.legacy_body fmt_Sprint "headers"
               (models.AMap {[ name := models.AString structured ]}) st = st)
    by reflexivity.
  assert (Hset : forall st,
             models.Headers
               (models.legacy_body fmt_Sprint "headerName1" (models.AString name) st)
               !! name
             = Some (models.HeaderValue (models.Secrets st) "headerName1")).
  { intros st. unfold models.legacy_body.
    change (models.hasPrefix "headerName1" "headerName") with true.
    cbn [negb andb models.toString]. rewrite (String_eqb_nonempty name Hname).
    cbn [models.set_Headers models.Headers]. apply lookup_insert_eq. }
  destruct (iter_raw_overlap name structured) as [-> | ->]; cbn [foldl fst snd].
  - rewrite Hskip, Hset. reflexivity.
  - rewrite Hskip, Hset. reflexivity.
Qed.

Lemma iter_raw_overlap_qp (name structured : string) :
  let e1 := ("queryParameters",
             models.AMap {[ name := models.AString structured ]}) in
  let e2 := ("queryParamName1", models.AString name) in
  iter _ (raw_overlap_qp name structured) = [e1; e2]
  \/ iter _ (raw_overlap_qp name structured) = [e2; e1].
Proof.
  intros e1 e2. apply Permutation_length_2_inv.
  rewrite (iter_ok _). unfold raw_overlap_qp.
  rewrite map_to_list_insert by done.
  by rewrite map_to_list_singleton.
Qed.

(** The query parameters are loaded the same way: the legacy key
    [queryParamName1] overrides the structured field [queryParameters]. *)
Lemma LoadPluginSettings_legacy_query_param_overrides
    (source : models.DataSourceInstanceSettings) (name structured : string) :
  name <> "" ->
  json_Unmarshal (models.JSONData source) = inl (raw_overlap_qp name structured) ->
  exists st,
    models.LoadPluginSettings json_Unmarshal fmt_Sprint iter source = inl st
    /\ models.QueryParameters st !! name
       = Some (default ""
                 (models.DecryptedSecureJSONData source !! "queryParamValue1")).
Proof.
  intros Hname Hjson. unfold models.LoadPluginSettings. rewrite Hjson.
  eexists. split; [reflexivity|].
  assert (Hh : models.raw_get (raw_overlap_qp name structured) "headers"
               = models.ANil) by reflexivity.
  assert (Hq : models.raw_get (raw_overlap_qp name structured) "queryParameters"
               = models.AMap {[ name := models.AString structured ]}) by reflexivity.
  rewrite Hh, Hq. unfold range at 2. rewrite iter_singleton.
  cbn [foldl fst snd]. unfold range.
  assert (Hskip : forall st,
             models.legacy_body fmt_Sprint "queryParameters"
               (models.AMap {[ name := models.AString structured ]}) st = st)
    by reflexivity.
  assert (Hset : forall st,
             models.QueryParameters
               (models.legacy_body fmt_Sprint "queryParamName1"
                  (models.AString name) st)
               !! name
             = Some (models.QueryParamValue (models.Secrets st) "queryParamName1")).
  { intros st. unfold models.legacy_body.
    change (models.hasPrefix "queryParamName1" "headerName") with false.
    change (models.hasPrefix "queryParamName1" "queryParamName") with true.
    cbn [negb andb models.toString]. rewrite (String_eqb_nonempty name Hname).
    cbn [models.set_QueryParameters models.QueryParameters].
    apply lookup_insert_eq. }
  destruct (iter_raw_overlap_qp name structured) as [-> | ->]; cbn [foldl fst snd].
  - rewrite Hskip, Hset. reflexivity.
  - rewrite Hskip, Hset. reflexivity.
Qed.

End LoaderFacts.

Lemma LoadPluginSettings_legacy_overrides_witness :
  exists st,
    models.LoadPluginSettings (fun _ => inl (raw_overlap "X-Auth" "structured"))
      (fun _ => "") iter0 source_overlap = inl st
    /\ models.Headers st !! "X-Auth" = Some "legacy".
Proof.
  destruct (LoadPluginSettings_legacy_overrides
              (fun _ => inl (raw_overlap "X-Auth" "structured")) (fun _ => "")
              iter0 range_ok_map_to_list source_overlap "X-Auth" "structured")
    as (st & Hst & Hh); [discriminate|reflexivity|].
  exists st. split; [exact Hst|exact Hh].
Defined.

(** ** Go's [path.Clean] *)

Section PathFacts.

Import GoPath.

Lemma copy_element_length (rest : list ascii) :
  length (copy_element rest).2 <= length rest.
Proof.
  induction rest as [|c rest IH]; simpl; [lia|].
  destruct (is_slash c); simpl; [lia|].
  destruct (copy_element rest) as [el tl']. simpl in *. lia.
Qed.

Lemma copy_element_length_cons (c : ascii) (rest : list ascii) :
  is_slash c = false -> length (copy_element (c :: rest)).2 <= length rest.
Proof.
  intros Hc. simpl. rewrite Hc. pose proof (copy_element_length rest).
  destruct (copy_element rest); simpl in *; lia.
Qed.

(** The copy loop stops at the first separator, whatever follows it. *)
Lemma copy_element_app_slash (l rest : list ascii) :
  copy_element (l ++ slash :: rest)
  = ((copy_element l).1, (copy_element l).2 ++ slash :: rest).
Proof.
  induction l as [|c l IH]; simpl; [done|].
  destruct (is_slash c); simpl; [done|].
  rewrite IH. by destruct (copy_element l).
Qed.

Lemma copy_element_no_slash (l : list ascii) :
  forallb (fun c => negb (is_slash c)) l = true ->
  copy_element l = (l, []).
Proof.
  induction l as [|c l IH]; simpl; [done|].
  intros H. apply andb_prop in H as [Hc Hl].
  apply negb_true_iff in Hc. rewrite Hc, (IH Hl). done.
Qed.

(** [clean_loop] reads at least one byte per iteration: any fuel that covers
    the unread suffix gives the same result. *)
Lemma clean_loop_fuel (rooted : bool) (f1 : nat) :
  forall (f2 : nat) (rest out : list ascii) (dotdot : nat),
    length rest <= f1 -> length rest <= f2 ->
    clean_loop f1 rooted rest out dotdot = clean_loop f2 rooted rest out dotdot.
Proof.
  induction f1 as [|f1 IH]; intros f2 rest out dotdot H1 H2.
  - destruct rest; [|simpl in H1; lia]. by destruct f2.
  - destruct f2 as [|f2].
    + destruct rest; [done|simpl in H2; lia].
    + destruct rest as [|c rest1]; [done|]. simpl in H1, H2.
      cbn [clean_loop].
      destruct (is_slash c) eqn:Hc; [apply IH; lia|].
      destruct (is_dot c && ends_element rest1); [apply IH; lia|].
      destruct (is_dot c && is_dot (hd slash rest1) && ends_element (tl rest1)).
      * assert (length (tl rest1) <= length rest1) by (destruct rest1; simpl; lia).
        repeat case_match; apply IH; lia.
      * pose proof (copy_element_length_cons c rest1 Hc) as Hlt.
        destruct (copy_element (c :: rest1)) as [el rest']. simpl in Hlt.
        apply IH; lia.
Qed.

Lemma is_slash_eq (c : ascii) : is_slash c = true -> c = slash.
Proof. apply Ascii.eqb_eq. Qed.

Lemma ends_element_cases (Y : list ascii) :
  ends_element Y = true -> Y = [] \/ exists Y', Y = slash :: Y'.
Proof.
  destruct Y as [|c Y']; [by left|]. simpl. intros Hc. right.
  exists Y'. by rewrite (is_slash_eq c Hc).
Qed.

Lemma copy_element_app_boundary (l Y : list ascii) :
  ends_element Y = true ->
  copy_element (l ++ Y) = ((copy_element l).1, (copy_element l).2 ++ Y).
Proof.
  intros HY. destruct (ends_element_cases Y HY) as [->|[Y' ->]].
  - rewrite !(right_id_L [] (++)). by destruct (copy_element l).
  - apply copy_element_app_slash.
Qed.

(** A separator put in front of a boundary (the end of the path, or another
    separator) changes nothing: this is how repeated and trailing
    separators disappear. *)
Lemma clean_loop_slash_before_boundary (rooted : bool) (Y : list ascii) (n : nat) :
  ends_element Y = true ->
  forall (a : list ascii) (f1 f2 : nat) (out : list ascii) (dotdot : nat),
    length a <= n ->
    length (a ++ slash :: Y) <= f1 -> length (a ++ Y) <= f2 ->
    clean_loop f1 rooted (a ++ slash :: Y) out dotdot
    = clean_loop f2 rooted (a ++ Y) out dotdot.
Proof.
  intros HY. induction n as [|n IH]; intros a f1 f2 out dotdot Hn H1 H2.
  - destruct a; [|simpl in Hn; lia]. simpl in *.
    destruct f1 as [|f1]; [lia|]. cbn [clean_loop].
    change (is_slash slash) with true. cbv iota.
    apply clean_loop_fuel; lia.
  - destruct a as [|c a1].
    { simpl in *. destruct f1 as [|f1]; [lia|]. cbn [clean_loop].
      change (is_slash slash) with true. cbv iota.
      apply clean_loop_fuel; lia. }
    simpl in Hn, H1, H2.
    destruct f1 as [|f1]; [lia|]. destruct f2 as [|f2]; [lia|].
    rewrite <- !app_comm_cons. cbn [clean_loop].
    destruct (is_slash c) eqn:Hc; [apply IH; lia|].
    assert (Hends : ends_element (a1 ++ slash :: Y) = ends_element (a1 ++ Y)).
    { destruct a1; [simpl; by rewrite HY|done]. }
    rewrite Hends.
    destruct (is_dot c && ends_element (a1 ++ Y)); [apply IH; lia|].
    destruct a1 as [|c1 a2].
    + (* the element ends here: it is not [..] *)
      assert (Hhd : is_dot (hd slash ([] ++ Y)) = false).
      { destruct (ends_element_cases Y HY) as [->|[Y' ->]]; reflexivity. }
      cbn [app] in *. cbn [hd]. change (is_dot slash) with false.
      rewrite Hhd, !andb_false_r. cbn [andb].
      change (c :: slash :: Y) with ([c] ++ slash :: Y).
      change (c :: Y) with ([c] ++ Y).
      rewrite (copy_element_app_slash [c] Y).
      rewrite (copy_element_app_boundary [c] Y HY).
      cbn [copy_element]. rewrite Hc. cbn [fst snd app].
      apply (IH []); simpl in *; lia.
    + rewrite <- !app_comm_cons. cbn [hd tl].
      assert (Hends2 : ends_element (a2 ++ slash :: Y) = ends_element (a2 ++ Y)).
      { destruct a2; [simpl; by rewrite HY|done]. }
      rewrite Hends2. simpl in Hn, H1, H2.
      destruct (is_dot c && is_dot c1 && ends_element (a2 ++ Y)).
      * repeat case_match; apply IH; lia.
      * rewrite !app_comm_cons.
        rewrite (copy_element_app_slash (c :: c1 :: a2) Y).
        rewrite (copy_element_app_boundary (c :: c1 :: a2) Y HY).
        pose proof (copy_element_length_cons c (c1 :: a2) Hc) as Hlt.
        change (length (c1 :: a2)) with (S (length a2)) in Hlt.
        destruct (copy_element (c :: c1 :: a2)) as [el rest']. simpl in Hlt.
        cbn [fst snd].
        apply IH; rewrite ?length_app in *; simpl in *; lia.
Qed.

Lemma clean_loop_skip_slash (rooted : bool) (f : nat)
    (rest out : list ascii) (dotdot : nat) :
  clean_loop (S f) rooted (slash :: rest) out dotdot
  = clean_loop f rooted rest out dotdot.
Proof. reflexivity. Qed.

Lemma Clean_bytes_slash_before_boundary (a Y : list ascii) :
  a <> [] -> ends_element Y = true ->
  Clean_bytes (a ++ slash :: Y) = Clean_bytes (a ++ Y).
Proof.
  intros Ha HY. destruct a as [|c0 a]; [done|].
  unfold Clean_bytes. rewrite <- !app_comm_cons. cbn [tl].
  destruct (is_slash c0).
  - rewrite (clean_loop_slash_before_boundary true Y (length a) HY a
               _ (length (c0 :: a ++ Y)) [slash] 1); simpl; try lia; done.
  - rewrite !app_comm_cons.
    rewrite (clean_loop_slash_before_boundary false Y (length (c0 :: a)) HY
               (c0 :: a) _ (length ((c0 :: a) ++ Y)) [] 0); simpl; try lia; done.
Qed.

Lemma list_ascii_of_string_app (a b : string) :
  list_ascii_of_string (a +:+ b)
  = list_ascii_of_string a ++ list_ascii_of_string b.
Proof. induction a as [|c a IH]; simpl; [done|]. by rewrite IH. Qed.

Lemma list_ascii_nil (s : string) : list_ascii_of_string s = [] -> s = "".
Proof. by destruct s. Qed.

(** Trailing separators are dropped. *)
Lemma Clean_trailing_slash (p : string) :
  p <> "" -> Clean (p +:+ "/") = Clean p.
Proof.
  intros Hp. unfold Clean. rewrite list_ascii_of_string_app.
  change (list_ascii_of_string "/") with [slash].
  rewrite (Clean_bytes_slash_before_boundary (list_ascii_of_string p) []);
    [by rewrite (right_id_L [] (++))| |done].
  intros H. by apply Hp, list_ascii_nil.
Qed.

(** Repeated separators collapse. *)
Lemma Clean_repeated_slash (a b : string) :
  Clean (a +:+ "//" +:+ b) = Clean (a +:+ "/" +:+ b).
Proof.
  unfold Clean. rewrite !list_ascii_of_string_app.
  change (list_ascii_of_string "//" ++ list_ascii_of_string b)
    with (slash :: slash :: list_ascii_of_string b).
  change (list_ascii_of_string "/" ++ list_ascii_of_string b)
    with (slash :: list_ascii_of_string b).
  f_equal.
  destruct (list_ascii_of_string a) as [|c la] eqn:Ha.
  - unfold Clean_bytes. cbn [app tl length]. change (is_slash slash) with true.
    cbv iota. by rewrite clean_loop_skip_slash.
  - by apply Clean_bytes_slash_before_boundary.
Qed.

Lemma plain_segment_bytes (s : string) :
  plain_segment s = true -> plain_bytes (list_ascii_of_string s).
Proof.
  unfold plain_segment. intros H.
  apply andb_prop in H as [H Hns]. apply andb_prop in H as [H Hdd].
  apply andb_prop in H as [He Hd].
  apply negb_true_iff, String.eqb_neq in He, Hd, Hdd.
  repeat split; [| | |exact Hns].
  - intros E. by apply He, list_ascii_nil.
  - intros E. apply Hd. rewrite <- (string_of_list_ascii_of_string s). by rewrite E.
  - intros E. apply Hdd. rewrite <- (string_of_list_ascii_of_string s). by rewrite E.
Qed.

Lemma is_dot_eq (c : ascii) : is_dot c = true -> c = dot.
Proof. apply Ascii.eqb_eq. Qed.

(** A plain segment is copied to the output as it is. *)
Lemma clean_loop_plain (rooted : bool) (seg Y : list ascii) (f : nat)
    (out : list ascii) (dotdot : nat) :
  plain_bytes seg -> ends_element Y = true ->
  length (seg ++ Y) <= f ->
  clean_loop f rooted (seg ++ Y) out dotdot
  = clean_loop (length Y) rooted Y (with_separator rooted out ++ seg) dotdot.
Proof.
  intros (Hne & Hd & Hdd & Hns) HY Hf.
  destruct seg as [|c s1]; [done|]. clear Hne.
  destruct f as [|f]; [simpl in Hf; lia|].
  pose proof Hns as Hns'. cbn [forallb] in Hns'.
  apply andb_prop in Hns' as [Hc Hs1]. apply negb_true_iff in Hc.
  rewrite <- app_comm_cons. cbn [clean_loop]. rewrite Hc.
  assert (H2 : is_dot c && ends_element (s1 ++ Y) = false).
  { destruct s1 as [|c1 s2].
    - destruct (is_dot c) eqn:E; [|done].
      apply is_dot_eq in E. by subst c.
    - cbn [forallb] in Hs1. apply andb_prop in Hs1 as [Hc1 _].
      apply negb_true_iff in Hc1. simpl. rewrite Hc1. apply andb_false_r. }
  rewrite H2.
  assert (H3 : is_dot c && is_dot (hd slash (s1 ++ Y)) && ends_element (tl (s1 ++ Y))
               = false).
  { destruct s1 as [|c1 [|c2 s3]].
    - assert (is_dot (hd slash ([] ++ Y)) = false) as ->.
      { destruct (ends_element_cases Y HY) as [->|[Y' ->]]; reflexivity. }
      by rewrite andb_false_r.
    - simpl. destruct (is_dot c) eqn:E; [|done].
      destruct (is_dot c1) eqn:E1; [|done].
      apply is_dot_eq in E, E1. by subst.
    - cbn [forallb] in Hs1. apply andb_prop in Hs1 as [_ Hs1].
      apply andb_prop in Hs1 as [Hc2 _]. apply negb_true_iff in Hc2.
      simpl. rewrite Hc2. apply andb_false_r. }
  rewrite H3.
  rewrite app_comm_cons, (copy_element_app_boundary (c :: s1) Y HY).
  rewrite (copy_element_no_slash (c :: s1) Hns). cbn [fst snd app].
  fold (with_separator rooted out).
  apply clean_loop_fuel; simpl in *; rewrite ?length_app in *; lia.
Qed.

Lemma clean_loop_nil (rooted : bool) (f : nat) (out : list ascii) (dotdot : nat) :
  clean_loop f rooted [] out dotdot = out.
Proof. by destruct f. Qed.

Lemma Clean_bytes_plain (l : list ascii) : plain_bytes l -> Clean_bytes l = l.
Proof.
  intros Hl. pose proof Hl as (Hne & _ & _ & Hns).
  destruct l as [|c l']; [done|].
  cbn [forallb] in Hns. apply andb_prop in Hns as [Hc _].
  apply negb_true_iff in Hc.
  pose proof (clean_loop_plain false (c :: l') [] (length (c :: l')) [] 0
                Hl eq_refl) as H.
  rewrite (right_id_L [] (++)) in H. specialize (H (le_n _)).
  unfold Clean_bytes. rewrite Hc, H. reflexivity.
Qed.

(** [Clean] leaves a plain segment as it is. *)
Lemma Clean_plain (r : string) : plain_segment r = true -> Clean r = r.
Proof.
  intros Hr. unfold Clean.
  rewrite (Clean_bytes_plain _ (plain_segment_bytes r Hr)).
  apply string_of_list_ascii_of_string.
Qed.

Lemma plain_bytes_head (l : list ascii) :
  plain_bytes l -> exists c l', l = c :: l' /\ is_slash c = false.
Proof.
  intros (Hne & _ & _ & Hns). destruct l as [|c l']; [done|].
  cbn [forallb] in Hns. apply andb_prop in Hns as [Hc _].
  apply negb_true_iff in Hc. eauto.
Qed.

Lemma Clean_bytes_dot_plain (lr : list ascii) :
  plain_bytes lr -> Clean_bytes (dot :: slash :: lr) = lr.
Proof.
  intros Hr. unfold Clean_bytes. change (is_slash dot) with false. cbv iota.
  cbn [length clean_loop]. change (is_slash dot) with false.
  change (is_dot dot) with true. change (is_slash slash) with true.
  cbn [ends_element andb]. change (is_slash slash) with true. cbv iota.
  pose proof (clean_loop_plain false lr [] (length lr) [] 0 Hr eq_refl) as H.
  rewrite (right_id_L [] (++)) in H. rewrite (H (le_n _)).
  destruct (plain_bytes_head lr Hr) as (c & l' & -> & _). reflexivity.
Qed.

Lemma Clean_bytes_two_plain (la lr : list ascii) :
  plain_bytes la -> plain_bytes lr ->
  Clean_bytes (la ++ slash :: lr) = la ++ slash :: lr.
Proof.
  intros Ha Hr. destruct (plain_bytes_head la Ha) as (c & la' & -> & Hc).
  assert (Hloop : clean_loop (length ((c :: la') ++ slash :: lr)) false
                    ((c :: la') ++ slash :: lr) [] 0
                  = (c :: la') ++ slash :: lr).
  { rewrite (clean_loop_plain false (c :: la') (slash :: lr) _ [] 0 Ha eq_refl
               (le_n _)).
    cbn [length]. rewrite clean_loop_skip_slash.
    pose proof (clean_loop_plain false lr [] (length lr)
                  (with_separator false [] ++ c :: la') 0 Hr eq_refl) as H.
    rewrite (right_id_L [] (++)) in H. rewrite (H (le_n _)).
    rewrite clean_loop_nil. unfold with_separator.
    cbn [app length Nat.eqb negb andb orb].
    by rewrite <- (assoc_L (++)). }
  unfold Clean_bytes. rewrite <- app_comm_cons, Hc.
  rewrite app_comm_cons, Hloop. reflexivity.
Qed.

(** An empty or current-directory path leaves just the ref id. *)
Lemma Join_dot_plain (r : string) :
  plain_segment r = true -> Join ["."; r] = r.
Proof.
  intros Hr.
  change (Join ["."; r]) with (Clean (String dot (String slash r))).
  unfold Clean. cbn [list_ascii_of_string].
  rewrite (Clean_bytes_dot_plain _ (plain_segment_bytes r Hr)).
  apply string_of_list_ascii_of_string.
Qed.

(** Two plain segments are joined with one separator. *)
Lemma Join_plain_plain (a r : string) :
  plain_segment a = true -> plain_segment r = true ->
  Join [a; r] = a +:+ "/" +:+ r.
Proof.
  intros Ha Hr.
  assert (HJ : Join [a; r] = Clean ((a +:+ "/") +:+ r)).
  { destruct a as [|c a']; [discriminate|]. reflexivity. }
  rewrite HJ. unfold Clean. rewrite !list_ascii_of_string_app.
  change (list_ascii_of_string "/") with [slash].
  rewrite <- (assoc_L (++)).
  change ([slash] ++ list_ascii_of_string r) with (slash :: list_ascii_of_string r).
  rewrite (Clean_bytes_two_plain _ _ (plain_segment_bytes _ Ha)
             (plain_segment_bytes _ Hr)).
  change (slash :: list_ascii_of_string r)
    with (list_ascii_of_string "/" ++ list_ascii_of_string r).
  rewrite <- !list_ascii_of_string_app.
  apply string_of_list_ascii_of_string.
Qed.

Lemma Clean_bytes_nonempty (l : list ascii) : Clean_bytes l <> [].
Proof.
  unfold Clean_bytes. destruct l as [|c l]; [done|].
  by destruct (if is_slash c then _ else _).
Qed.

Lemma Clean_nonempty (p : string) : Clean p <> "".
Proof.
  unfold Clean. pose proof (Clean_bytes_nonempty (list_ascii_of_string p)) as H.
  by destruct (Clean_bytes (list_ascii_of_string p)).
Qed.

Lemma Join_Clean_nonempty (p r : string) : Join [Clean p; r] <> "".
Proof.
  unfold Join. pose proof (Clean_nonempty p) as H.
  destruct (Clean p) as [|c s]; [done|].
  cbn [foldr String.length Nat.add Nat.eqb]. apply Clean_nonempty.
Qed.

End PathFacts.

(** ** The channel identifier of a query *)

Lemma Channel_String_datasource (uid key : string) :
  key <> "" ->
  Channel_String (mkLiveChannel ScopeDatasource uid key)
  = if String.eqb uid "" then ScopeDatasource +:+ "/" +:+ key
    else ScopeDatasource +:+ "/" +:+ uid +:+ "/" +:+ key.
Proof.
  intros Hk. unfold Channel_String. cbn [Scope Namespace CPath].
  assert (String.eqb key "" = false) as -> by (by destruct key).
  destruct (String.eqb uid ""); reflexivity.
Qed.

(** C6 (channel identifier).  For every query that decodes, the channel path
    [query] registers, and announces in the frame's channel
    "ds/<instance uid>/<path>" ("ds/<path>" when the instance has no uid, as
    [Channel.String] leaves an empty namespace out), is
    [path.Join(path.Clean(query path), ref id)].
    [Clean] drops trailing separators and collapses repeated ones.  With a
    plain ref id, an empty or "." query path gives just the ref id, and a
    plain segment, with or without a trailing separator, gives
    "<segment>/<ref id>"; so "foo/" with "A" gives "foo/A", and "" or "."
    with "B" gives "B". *)
Theorem query_channel_path
    (json_Unmarshal : string -> queryModel + string) (iter : map_iter)
    (pCtx : PluginContext) (q : DataQuery) (qm : queryModel) (w : World) :
  json_Unmarshal (JSON q) = inl qm ->
  let key := GoPath.Join [GoPath.Clean (WsPath qm); RefID q] in
  let '(resp, w') := query json_Unmarshal iter pCtx q w in
  Error resp = None
  /\ Frames resp
     = [mkFrame "response" []
          (Some (mkFrameMeta
                   (let uid := models.UID (DataSourceInstanceSettings pCtx) in
                    if String.eqb uid "" then ScopeDatasource +:+ "/" +:+ key
                    else ScopeDatasource +:+ "/" +:+ uid +:+ "/" +:+ key)))]
  /\ (exists params,
        channelConfigs (wsds w') !! key = Some (mkChannelConfig (WsPath qm) params))
  /\ (forall p, p <> "" -> GoPath.Clean (p +:+ "/") = GoPath.Clean p)
  /\ (forall a b, GoPath.Clean (a +:+ "//" +:+ b) = GoPath.Clean (a +:+ "/" +:+ b))
  /\ (plain_segment (RefID q) = true ->
      WsPath qm = "" \/ WsPath qm = "." ->
      key = RefID q)
  /\ (plain_segment (RefID q) = true ->
      forall seg, plain_segment seg = true ->
      WsPath qm = seg \/ WsPath qm = seg +:+ "/" ->
      key = seg +:+ "/" +:+ RefID q)
  /\ (WsPath qm = "foo/" -> RefID q = "A" -> key = "foo/A")
  /\ (WsPath qm = "" \/ WsPath qm = "." -> RefID q = "B" -> key = "B").
Proof.
  intros Hjson key. unfold query. rewrite Hjson.
  unfold bind, ret, setChannelConfig.
  destruct (mergeQueryParams iter (QueryParams qm) w) as [params w1].
  cbn [Error Frames wsds channelConfigs CPath app].
  split; [reflexivity|].
  split; [by rewrite Channel_String_datasource by apply Join_Clean_nonempty|].
  split; [exists params; apply lookup_insert_eq|].
  split; [exact Clean_trailing_slash|].
  split; [exact Clean_repeated_slash|].
  split; [|split; [|split]].
  - intros Hr [Hp|Hp]; unfold key; rewrite Hp; by apply Join_dot_plain.
  - intros Hr seg Hs [Hp|Hp]; unfold key; rewrite Hp.
    + rewrite (Clean_plain seg Hs). by apply Join_plain_plain.
    + rewrite Clean_trailing_slash by (by destruct seg).
      rewrite (Clean_plain seg Hs). by apply Join_plain_plain.
  - intros Hp Hr. unfold key. by rewrite Hp, Hr.
  - intros [Hp|Hp] Hr; unfold key; by rewrite Hp, Hr.
Qed.

Lemma query_channel_path_witness :
  let '(resp, w') :=
    query json_foo iter0 (mkPluginContext ds_settings) (mkDataQuery "A" "{}")
          world_reg in
  Frames resp = [mkFrame "response" [] (Some (mkFrameMeta "ds/uid1/foo/A"))]
  /\ exists params,
       channelConfigs (wsds w') !! "foo/A" = Some (mkChannelConfig "foo/" params).
Proof.
  pose proof (query_channel_path json_foo iter0 (mkPluginContext ds_settings)
                (mkDataQuery "A" "{}") (mkQueryModel "foo/" ∅) world_reg
                eq_refl) as H.
  cbv zeta in H.
  destruct (query json_foo iter0 (mkPluginContext ds_settings)
              (mkDataQuery "A" "{}") world_reg) as [resp w'].
  destruct H as (_ & Hf & Hc & _).
  split; [exact Hf|exact Hc].
Defined.

(** * Further properties of the code *)

(** ** Strings *)

Section StringFacts.

Lemma append_cons (c : ascii) (x y : string) :
  String c x +:+ y = String c (x +:+ y).
Proof. reflexivity. Qed.

Lemma substring_0_0 (s : string) : substring 0 0 s = "".
Proof. by destruct s. Qed.

Lemma substring_0_length (s : string) : substring 0 (String.length s) s = s.
Proof. induction s as [|c s IH]; simpl; [done|]. by rewrite IH. Qed.

Lemma substring_0_append (p r : string) :
  substring 0 (String.length p) (p +:+ r) = p.
Proof.
  induction p as [|c p IH]; simpl.
  - by destruct r.
  - by rewrite IH.
Qed.

Lemma substring_skip_append (p r : string) (n : nat) :
  substring (String.length p) n (p +:+ r) = substring 0 n r.
Proof. induction p as [|c p IH]; simpl; [done|]. exact IH. Qed.

Lemma length_append (p r : string) :
  String.length (p +:+ r) = String.length p + String.length r.
Proof. induction p as [|c p IH]; simpl; [done|]. by rewrite IH. Qed.

(** A string is its first [i] bytes followed by the rest. *)
Lemma substring_split (s : string) :
  forall i, i <= String.length s ->
    s = substring 0 i s +:+ substring i (String.length s - i) s.
Proof.
  induction s as [|c s IH]; intros i Hi; simpl in Hi.
  - by destruct i.
  - destruct i as [|i]; simpl.
    + by rewrite substring_0_length.
    + rewrite append_cons. f_equal. apply IH. lia.
Qed.

Lemma substring_substring_split (s : string) :
  forall i n, i + n <= String.length s ->
    substring i (String.length s - i) s
    = substring i n s +:+ substring (i + n) (String.length s - (i + n)) s.
Proof.
  induction s as [|c s IH]; intros i n Hi; simpl in Hi.
  - destruct i, n; simpl in *; try lia; done.
  - destruct i as [|i].
    + rewrite Nat.sub_0_r, substring_0_length. cbn [Nat.add].
      apply substring_split. simpl in *. lia.
    + simpl. apply IH. lia.
Qed.

End StringFacts.

(** ** settings.go: the helpers *)

Ltac expose_append :=
  repeat match goal with
         | |- context [String.append ?p ?r] =>
             let t := eval cbv [String.append] in (String.append p r) in
             progress change (String.append p r) with t
         end.

Section SettingsHelpers.

Import models.

Lemma indexOf_loop_spec (s substr : string) :
  forall fuel i,
    S (String.length s) <= fuel + i ->
    (indexOf_loop fuel i s substr = (-1)%Z
     /\ forall j, i <= j -> j + String.length substr <= String.length s ->
                  substring j (String.length substr) s <> substr)
    \/ (exists r,
          indexOf_loop fuel i s substr = Z.of_nat r
          /\ i <= r
          /\ r + String.length substr <= String.length s
          /\ substring r (String.length substr) s = substr
          /\ forall j, i <= j -> j < r ->
                       substring j (String.length substr) s <> substr).
Proof.
  induction fuel as [|fuel IH]; intros i Hfuel; cbn [indexOf_loop].
  - left. split; [done|]. intros j Hj Hlen. lia.
  - destruct (i + String.length substr <=? String.length s) eqn:Hle.
    + apply Nat.leb_le in Hle.
      destruct (String.eqb (substring i (String.length substr) s) substr) eqn:Heq.
      * apply String.eqb_eq in Heq. right. exists i.
        repeat split; try done; try lia.
      * apply String.eqb_neq in Heq.
        destruct (IH (S i)) as [[Hnone Hno]|(r & Hr & Hir & Hlen & Hat & Hno)];
          [lia| |].
        -- left. split; [done|]. intros j Hj Hlen.
           destruct (decide (j = i)) as [->|Hne]; [done|]. apply Hno; lia.
        -- right. exists r. repeat split; try done; try lia.
           intros j Hj Hjr.
           destruct (decide (j = i)) as [->|Hne]; [done|]. apply Hno; lia.
    + apply Nat.leb_gt in Hle. left. split; [done|]. intros j Hj Hlen. lia.
Qed.

Lemma indexOf_spec (s substr : string) :
  (indexOf s substr = (-1)%Z
   /\ forall j, j + String.length substr <= String.length s ->
                substring j (String.length substr) s <> substr)
  \/ (exists r,
        indexOf s substr = Z.of_nat r
        /\ r + String.length substr <= String.length s
        /\ substring r (String.length substr) s = substr
        /\ forall j, j < r -> substring j (String.length substr) s <> substr).
Proof.
  unfold indexOf.
  destruct (indexOf_loop_spec s substr (S (String.length s)) 0)
    as [[Hnone Hno]|(r & Hr & _ & Hlen & Hat & Hno)]; [lia| |].
  - left. split; [done|]. intros j Hj. apply Hno; [lia|done].
  - right. exists r. repeat split; try done. intros j Hj. apply Hno; lia.
Qed.

(** [indexOf] finds the first occurrence: it returns [-1] exactly when
    [substr] occurs nowhere in [s], and otherwise the least index at which
    [substr] occurs. *)
Theorem indexOf_first_occurrence (s substr : string) :
  (indexOf s substr = (-1)%Z
   /\ forall j, j + String.length substr <= String.length s ->
                substring j (String.length substr) s <> substr)
  \/ (exists r,
        indexOf s substr = Z.of_nat r
        /\ r + String.length substr <= String.length s
        /\ substring r (String.length substr) s = substr
        /\ forall j, j < r -> substring j (String.length substr) s <> substr).
Proof. exact (indexOf_spec s substr). Qed.

Lemma hasPrefix_append (prefix rest : string) :
  hasPrefix (prefix +:+ rest) prefix = true.
Proof.
  unfold hasPrefix. rewrite length_append, substring_0_append.
  rewrite String.eqb_refl, andb_true_r. apply Nat.leb_le. lia.
Qed.

(** [hasPrefix] holds exactly of the strings that start with [prefix]. *)
Theorem hasPrefix_iff (s prefix : string) :
  hasPrefix s prefix = true <-> exists rest, s = prefix +:+ rest.
Proof.
  unfold hasPrefix. split.
  - intros H. apply andb_prop in H as [Hlen Heq].
    apply Nat.leb_le in Hlen. apply String.eqb_eq in Heq.
    exists (substring (String.length prefix)
                      (String.length s - String.length prefix) s).
    rewrite <- Heq at 1. by apply substring_split.
  - intros [rest ->]. apply hasPrefix_append.
Qed.

Lemma length_substring_0 (s : string) :
  forall r, r <= String.length s -> String.length (substring 0 r s) = r.
Proof.
  induction s as [|c s IH]; intros r Hr; simpl in Hr.
  - by destruct r; [|lia].
  - destruct r as [|r]; simpl; [done|]. rewrite IH; lia.
Qed.

(** [splitOnName] cuts a key around the first "Name": either "Name" does not
    occur and the key comes back alone, or it comes back as the two parts
    around the first occurrence, from which the key is rebuilt; the prefix
    and suffix helpers return those parts (or the empty string). *)
Theorem splitOnName_parts (setting : string) :
  (splitOnName setting = [setting]
   /\ prefixFromName setting = "" /\ suffixFromName setting = ""
   /\ forall j, j + 4 <= String.length setting ->
                substring j 4 setting <> "Name")
  \/ (exists p q,
        splitOnName setting = [p; q]
        /\ prefixFromName setting = p /\ suffixFromName setting = q
        /\ setting = p +:+ "Name" +:+ q
        /\ forall j, j < String.length p -> substring j 4 setting <> "Name").
Proof.
  unfold prefixFromName, suffixFromName, splitOnName.
  destruct (indexOf_spec setting "Name")
    as [[Hnone Hno]|(r & Hr & Hlen & Hat & Hno)].
  - left. rewrite Hnone. cbn [Z.leb Z.compare]. by repeat split.
  - right. rewrite Hr.
    assert ((0 <=? Z.of_nat r)%Z = true) as -> by (apply Z.leb_le; lia).
    rewrite Nat2Z.id. change (String.length "Name") with 4 in *.
    eexists _, _. repeat split.
    + rewrite (substring_split setting r) at 1 by lia.
      f_equal. rewrite (substring_substring_split setting r 4) by lia.
      by rewrite Hat.
    + intros j Hj. rewrite length_substring_0 in Hj by lia. by apply Hno.
Qed.

Lemma splitOnName_headerName (sfx : string) :
  splitOnName ("headerName" +:+ sfx) = ["header"; sfx].
Proof.
  assert (Hidx : indexOf ("headerName" +:+ sfx) "Name" = 6%Z).
  { expose_append. unfold indexOf. cbn. rewrite substring_0_0. reflexivity. }
  unfold splitOnName. rewrite Hidx.
  change (0 <=? 6)%Z with true. change (Z.to_nat 6) with 6. cbv iota.
  expose_append. cbn. by rewrite Nat.sub_0_r, substring_0_length.
Qed.

Lemma splitOnName_queryParamName (sfx : string) :
  splitOnName ("queryParamName" +:+ sfx) = ["queryParam"; sfx].
Proof.
  assert (Hidx : indexOf ("queryParamName" +:+ sfx) "Name" = 10%Z).
  { expose_append. unfold indexOf. cbn. rewrite substring_0_0. reflexivity. }
  unfold splitOnName. rewrite Hidx.
  change (0 <=? 10)%Z with true. change (Z.to_nat 10) with 10. cbv iota.
  expose_append. cbn. by rewrite Nat.sub_0_r, substring_0_length.
Qed.

Lemma legacy_key_pairs_with_secret_aux (sfx : string) (s : SecretPluginSettings) :
  HeaderValue (Some s) ("headerName" +:+ sfx)
  = default "" (secure s !! ("headerValue" +:+ sfx))
  /\ QueryParamValue (Some s) ("queryParamName" +:+ sfx)
     = default "" (secure s !! ("queryParamValue" +:+ sfx)).
Proof.
  unfold HeaderValue, QueryParamValue, prefixFromName, suffixFromName.
  rewrite splitOnName_headerName, splitOnName_queryParamName.
  by split.
Qed.

(** A legacy key [headerName<N>] is paired with the secret [headerValue<N>],
    and [queryParamName<N>] with [queryParamValue<N>], whatever [<N>] is; a
    missing secret, or a nil receiver, reads as the empty string. *)
Theorem legacy_key_pairs_with_secret (sfx : string) (s : SecretPluginSettings) :
  HeaderValue (Some s) ("headerName" +:+ sfx)
  = default "" (secure s !! ("headerValue" +:+ sfx))
  /\ QueryParamValue (Some s) ("queryParamName" +:+ sfx)
     = default "" (secure s !! ("queryParamValue" +:+ sfx))
  /\ HeaderValue None ("headerName" +:+ sfx) = ""
  /\ QueryParamValue None ("queryParamName" +:+ sfx) = "".
Proof.
  unfold HeaderValue, QueryParamValue, prefixFromName, suffixFromName.
  rewrite splitOnName_headerName, splitOnName_queryParamName.
  repeat split.
Qed.

End SettingsHelpers.

(** ** settings.go: [LoadPluginSettings] *)

Section LoaderMore.

Import models.

Variable json_Unmarshal : string -> gmap string any + string.
Variable fmt_Sprint : any -> string.
Variable iter : map_iter.
Hypothesis iter_ok : range_ok iter.

Lemma iter_NoDup {V : Type} (m : gmap string V) : NoDup (iter V m).*1.
Proof. rewrite (iter_ok V m). apply NoDup_fst_map_to_list. Qed.

Lemma iter_elem {V : Type} (m : gmap string V) (k : string) (v : V) :
  (k, v) ∈ iter V m <-> m !! k = Some v.
Proof. rewrite (iter_ok V m). apply elem_of_map_to_list. Qed.

Lemma list_to_map_iter {V : Type} (m : gmap string V) :
  list_to_map (iter V m) = m.
Proof.
  rewrite (list_to_map_proper (iter V m) (map_to_list m) (iter_NoDup m)
             (iter_ok V m)).
  apply list_to_map_to_list.
Qed.

Lemma structured_fold_lookup (l : list (string * any)) :
  forall (acc : gmap string string) (k : string),
    NoDup l.*1 ->
    foldl (fun acc kv => structured_body fmt_Sprint kv.1 kv.2 acc) acc l !! k
    = match (list_to_map l : gmap string any) !! k
              ≫= (fun v => let s := toString fmt_Sprint v in
                           if String.eqb s "" then None else Some s) with
      | Some s => Some s
      | None => acc !! k
      end.
Proof.
  induction l as [|[k1 v1] l IH]; intros acc k Hnd; simpl.
  - by rewrite lookup_empty.
  - apply NoDup_cons in Hnd as [Hnotin Hnd].
    rewrite IH by done. unfold structured_body.
    destruct (decide (k1 = k)) as [->|Hne].
    + rewrite (not_elem_of_list_to_map_1 l k Hnotin), lookup_insert_eq. simpl.
      destruct (String.eqb (toString fmt_Sprint v1) ""); simpl; [done|].
      by rewrite lookup_insert_eq.
    + rewrite (lookup_insert_ne (list_to_map l)) by done.
      destruct (list_to_map l !! k ≫= _); [done|].
      destruct (String.eqb (toString fmt_Sprint v1) ""); simpl; [done|].
      by rewrite lookup_insert_ne.
Qed.

Lemma range_structured (m : gmap string any) :
  range iter m (structured_body fmt_Sprint) ∅
  = structured_strings fmt_Sprint (AMap m).
Proof.
  apply map_eq. intros k. unfold range, structured_strings.
  rewrite structured_fold_lookup by apply iter_NoDup.
  rewrite list_to_map_iter, lookup_omap, lookup_empty.
  by destruct (m !! k ≫= _).
Qed.

Lemma legacy_body_skip (k : string) (v : any) (st : PluginSettings) :
  is_legacy_key k = false -> legacy_body fmt_Sprint k v st = st.
Proof.
  unfold is_legacy_key, legacy_body. intros H.
  apply orb_false_elim in H as [-> ->]. reflexivity.
Qed.

Lemma legacy_fold_skip (l : list (string * any)) :
  forall st,
    (forall k v, (k, v) ∈ l -> is_legacy_key k = false) ->
    foldl (fun acc kv => legacy_body fmt_Sprint kv.1 kv.2 acc) st l = st.
Proof.
  induction l as [|[k v] l IH]; intros st Hl; simpl; [done|].
  rewrite (legacy_body_skip k v st) by (apply (Hl k v); left).
  apply IH. intros k' v' Hin. apply (Hl k' v'). by right.
Qed.

(** Settings without legacy keys: the loaded headers and query parameters are
    the entries of the structured fields whose value is not empty (none when
    the field is missing or not an object), the path is the rendered [path]
    entry, and the API key is the secret [apiKey]. *)
Theorem LoadPluginSettings_structured_only
    (source : DataSourceInstanceSettings) (raw : gmap string any) :
  json_Unmarshal (JSONData source) = inl raw ->
  (forall k, is_Some (raw !! k) -> is_legacy_key k = false) ->
  LoadPluginSettings json_Unmarshal fmt_Sprint iter source
  = inl (mkSettings
           (toString fmt_Sprint (raw_get raw "path"))
           (structured_strings fmt_Sprint (raw_get raw "headers"))
           (structured_strings fmt_Sprint (raw_get raw "queryParameters"))
           (Some (mkSecret
                    (default "" (DecryptedSecureJSONData source !! "apiKey"))
                    (DecryptedSecureJSONData source)))).
Proof.
  intros Hjson Hnolegacy. unfold LoadPluginSettings. rewrite Hjson.
  f_equal. unfold range at 1. rewrite legacy_fold_skip.
  2:{ intros k v Hin. apply Hnolegacy. apply iter_elem in Hin. eauto. }
  unfold loadSecretPluginSettings.
  destruct (raw_get raw "headers") as [| | | | |hdrs];
    destruct (raw_get raw "queryParameters") as [| | | | |qps];
    cbn [set_Headers set_QueryParameters Path Headers QueryParameters Secrets
         structured_strings];
    rewrite ?range_structured; reflexivity.
Qed.

Lemma legacy_body_Secrets (k : string) (v : any) (st : PluginSettings) :
  Secrets (legacy_body fmt_Sprint k v st) = Secrets st.
Proof. unfold legacy_body. by repeat case_match. Qed.

Lemma legacy_fold_Secrets (l : list (string * any)) :
  forall st,
    Secrets (foldl (fun acc kv => legacy_body fmt_Sprint kv.1 kv.2 acc) st l)
    = Secrets st.
Proof.
  induction l as [|[k v] l IH]; intros st; simpl; [done|].
  by rewrite IH, legacy_body_Secrets.
Qed.

Lemma legacy_body_Headers_other (name k : string) (v : any) (st : PluginSettings) :
  ~ (hasPrefix k "headerName" = true /\ toString fmt_Sprint v = name) ->
  Headers (legacy_body fmt_Sprint k v st) !! name = Headers st !! name.
Proof.
  intros Hno. unfold legacy_body.
  destruct (hasPrefix k "headerName") eqn:Hh;
    destruct (hasPrefix k "queryParamName") eqn:Hq; cbn [negb andb];
    try done;
    destruct (String.eqb (toString fmt_Sprint v) "") eqn:He; try done.
  all: cbn [set_Headers Headers]; apply lookup_insert_ne; intros E; apply Hno; done.
Qed.

Lemma legacy_body_Headers_key (name k : string) (v : any) (st : PluginSettings) :
  hasPrefix k "headerName" = true -> toString fmt_Sprint v = name -> name <> "" ->
  Headers (legacy_body fmt_Sprint k v st) !! name
  = Some (HeaderValue (Secrets st) k).
Proof.
  intros Hh Hv Hname. unfold legacy_body. rewrite Hh, Hv. cbn [negb andb].
  rewrite (String_eqb_nonempty name Hname).
  cbn [set_Headers Headers]. apply lookup_insert_eq.
Qed.

Lemma legacy_fold_Headers_other (name : string) (l : list (string * any)) :
  forall st,
    (forall k v, (k, v) ∈ l ->
       ~ (hasPrefix k "headerName" = true /\ toString fmt_Sprint v = name)) ->
    Headers (foldl (fun acc kv => legacy_body fmt_Sprint kv.1 kv.2 acc) st l) !! name
    = Headers st !! name.
Proof.
  induction l as [|[k v] l IH]; intros st Hl; simpl; [done|].
  rewrite IH by (intros k' v' Hin; apply Hl; by right).
  apply legacy_body_Headers_other. apply Hl. left.
Qed.

Lemma legacy_fold_Headers_key (name key : string) (val : any)
    (l : list (string * any)) :
  hasPrefix key "headerName" = true -> toString fmt_Sprint val = name ->
  name <> "" ->
  forall st,
    NoDup l.*1 -> (key, val) ∈ l ->
    (forall k v, (k, v) ∈ l -> k <> key ->
       ~ (hasPrefix k "headerName" = true /\ toString fmt_Sprint v = name)) ->
    Headers (foldl (fun acc kv => legacy_body fmt_Sprint kv.1 kv.2 acc) st l) !! name
    = Some (HeaderValue (Secrets st) key).
Proof.
  intros Hh Hv Hname. induction l as [|[k1 v1] l IH]; intros st Hnd Hin Huniq.
  - by apply elem_of_nil in Hin.
  - simpl in Hnd. apply NoDup_cons in Hnd as [Hnotin Hnd]. simpl.
    apply elem_of_cons in Hin as [[= <- <-]|Hin].
    + rewrite legacy_fold_Headers_other.
      * by apply legacy_body_Headers_key.
      * intros k v Hkv. apply Huniq; [by right|].
        intros ->. apply Hnotin. apply list_elem_of_fmap. by exists (key, v).
    + rewrite IH; [by rewrite legacy_body_Secrets|done|done|].
      intros k v Hkv. apply Huniq. by right.
Qed.

Lemma legacy_body_QueryParameters_other (name k : string) (v : any)
    (st : PluginSettings) :
  ~ (hasPrefix k "queryParamName" = true /\ toString fmt_Sprint v = name) ->
  QueryParameters (legacy_body fmt_Sprint k v st) !! name
  = QueryParameters st !! name.
Proof.
  intros Hno. unfold legacy_body.
  destruct (hasPrefix k "headerName") eqn:Hh;
    destruct (hasPrefix k "queryParamName") eqn:Hq; cbn [negb andb];
    try done;
    destruct (String.eqb (toString fmt_Sprint v) "") eqn:He; try done.
  cbn [set_QueryParameters QueryParameters]. apply lookup_insert_ne.
  intros E. apply Hno. done.
Qed.

Lemma legacy_body_QueryParameters_key (name k : string) (v : any)
    (st : PluginSettings) :
  hasPrefix k "headerName" = false -> hasPrefix k "queryParamName" = true ->
  toString fmt_Sprint v = name -> name <> "" ->
  QueryParameters (legacy_body fmt_Sprint k v st) !! name
  = Some (QueryParamValue (Secrets st) k).
Proof.
  intros Hh Hq Hv Hname. unfold legacy_body. rewrite Hh, Hq, Hv. cbn [negb andb].
  rewrite (String_eqb_nonempty name Hname).
  cbn [set_QueryParameters QueryParameters]. apply lookup_insert_eq.
Qed.

Lemma legacy_fold_QueryParameters_other (name : string) (l : list (string * any)) :
  forall st,
    (forall k v, (k, v) ∈ l ->
       ~ (hasPrefix k "queryParamName" = true /\ toString fmt_Sprint v = name)) ->
    QueryParameters
      (foldl (fun acc kv => legacy_body fmt_Sprint kv.1 kv.2 acc) st l) !! name
    = QueryParameters st !! name.
Proof.
  induction l as [|[k v] l IH]; intros st Hl; simpl; [done|].
  rewrite IH by (intros k' v' Hin; apply Hl; by right).
  apply legacy_body_QueryParameters_other. apply Hl. left.
Qed.

Lemma legacy_fold_QueryParameters_key (name key : string) (val : any)
    (l : list (string * any)) :
  hasPrefix key "headerName" = false -> hasPrefix key "queryParamName" = true ->
  toString fmt_Sprint val = name -> name <> "" ->
  forall st,
    NoDup l.*1 -> (key, val) ∈ l ->
    (forall k v, (k, v) ∈ l -> k <> key ->
       ~ (hasPrefix k "queryParamName" = true /\ toString fmt_Sprint v = name)) ->
    QueryParameters
      (foldl (fun acc kv => legacy_body fmt_Sprint kv.1 kv.2 acc) st l) !! name
    = Some (QueryParamValue (Secrets st) key).
Proof.
  intros Hh Hq Hv Hname. induction l as [|[k1 v1] l IH]; intros st Hnd Hin Huniq.
  - by apply elem_of_nil in Hin.
  - simpl in Hnd. apply NoDup_cons in Hnd as [Hnotin Hnd]. simpl.
    apply elem_of_cons in Hin as [[= <- <-]|Hin].
    + rewrite legacy_fold_QueryParameters_other.
      * by apply legacy_body_QueryParameters_key.
      * intros k v Hkv. apply Huniq; [by right|].
        intros ->. apply Hnotin. apply list_elem_of_fmap. by exists (key, v).
    + rewrite IH; [by rewrite legacy_body_Secrets|done|done|].
      intros k v Hkv. apply Huniq. by right.
Qed.

Lemma hasPrefix_headerName (sfx : string) :
  hasPrefix ("headerName" +:+ sfx) "headerName" = true.
Proof. apply hasPrefix_append. Qed.

Lemma hasPrefix_queryParamName (sfx : string) :
  hasPrefix ("queryParamName" +:+ sfx) "headerName" = false
  /\ hasPrefix ("queryParamName" +:+ sfx) "queryParamName" = true.
Proof.
  split; [|apply hasPrefix_append].
  unfold hasPrefix. expose_append. cbn. reflexivity.
Qed.

Lemma Secrets_structured (st : PluginSettings) (h q : gmap string string) :
  Secrets (set_QueryParameters (set_Headers st h) q) = Secrets st.
Proof. done. Qed.

(** A legacy key that alone names a header (or a query parameter) decides
    its value, whatever the structured fields say: [headerName<N>] naming
    [name] loads [Headers[name]] as the secret [headerValue<N>], and
    [queryParamName<N>] loads [QueryParameters[name]] as the secret
    [queryParamValue<N>]; a missing secret gives the empty string. *)
Theorem LoadPluginSettings_legacy_key
    (source : DataSourceInstanceSettings) (raw : gmap string any)
    (sfx name : string) (val : any) :
  json_Unmarshal (JSONData source) = inl raw ->
  toString fmt_Sprint val = name -> name <> "" ->
  exists st,
    LoadPluginSettings json_Unmarshal fmt_Sprint iter source = inl st
    /\ (raw !! ("headerName" +:+ sfx) = Some val ->
        (forall k v, raw !! k = Some v -> k <> "headerName" +:+ sfx ->
           hasPrefix k "headerName" = true -> toString fmt_Sprint v <> name) ->
        Headers st !! name
        = Some (default "" (DecryptedSecureJSONData source
                              !! ("headerValue" +:+ sfx))))
    /\ (raw !! ("queryParamName" +:+ sfx) = Some val ->
        (forall k v, raw !! k = Some v -> k <> "queryParamName" +:+ sfx ->
           hasPrefix k "queryParamName" = true -> toString fmt_Sprint v <> name) ->
        QueryParameters st !! name
        = Some (default "" (DecryptedSecureJSONData source
                              !! ("queryParamValue" +:+ sfx)))).
Proof.
  intros Hjson Hv Hname. unfold LoadPluginSettings. rewrite Hjson.
  eexists. split; [reflexivity|].
  set (st0 := mkSettings _ ∅ ∅ _).
  set (st1 := match raw_get raw "headers" with AMap _ => _ | _ => st0 end).
  set (st2 := match raw_get raw "queryParameters" with AMap _ => _ | _ => st1 end).
  assert (Hsec : Secrets st2
                 = Some (mkSecret
                           (default "" (DecryptedSecureJSONData source !! "apiKey"))
                           (DecryptedSecureJSONData source))).
  { unfold st2, st1, st0. by repeat case_match. }
  unfold range. split.
  - intros Hkey Huniq.
    rewrite (legacy_fold_Headers_key name ("headerName" +:+ sfx) val);
      [|apply hasPrefix_headerName|done|done|apply iter_NoDup
       |by apply iter_elem|].
    + rewrite Hsec.
      by destruct (legacy_key_pairs_with_secret_aux sfx
                     (mkSecret
                        (default "" (DecryptedSecureJSONData source !! "apiKey"))
                        (DecryptedSecureJSONData source))) as [-> _].
    + intros k v Hkv Hne [Hp Hn]. apply iter_elem in Hkv.
      by apply (Huniq k v).
  - intros Hkey Huniq.
    destruct (hasPrefix_queryParamName sfx) as [Hh Hq].
    rewrite (legacy_fold_QueryParameters_key name ("queryParamName" +:+ sfx) val);
      [|done|done|done|done|apply iter_NoDup|by apply iter_elem|].
    + rewrite Hsec.
      by destruct (legacy_key_pairs_with_secret_aux sfx
                     (mkSecret
                        (default "" (DecryptedSecureJSONData source !! "apiKey"))
                        (DecryptedSecureJSONData source))) as [_ ->].
    + intros k v Hkv Hne [Hp Hn]. apply iter_elem in Hkv.
      by apply (Huniq k v).
Qed.

End LoaderMore.

(** ** plugin.go: the handlers *)

Section HandlerFacts.

Variable json_Unmarshal : string -> queryModel + string.
Variable iter : map_iter.
Variable URL : Type.
Variable url_Parse : string -> URL + string.
Variable URL_Path : URL -> string.
Variable URL_set : URL -> string -> string -> URL.
Variable URL_String : URL -> string.
Variable Values_Encode : list (string * string) -> string.
Variable strings_TrimSpace : string -> string.
Variable Dial : string -> list (string * string) -> DialResult.

Local Abbreviation RunStream' :=
  (RunStream iter URL url_Parse URL_Path URL_set URL_String Values_Encode
             strings_TrimSpace Dial).

Lemma query_malformed (pCtx : PluginContext) (q : DataQuery) (e : string)
    (w : World) :
  json_Unmarshal (JSON q) = inr e ->
  query json_Unmarshal iter pCtx q w = (mkDataResponse (Some e) [], w).
Proof. intros H. unfold query. by rewrite H. Qed.

Lemma query_response (pCtx : PluginContext) (q : DataQuery) (w : World) :
  (query json_Unmarshal iter pCtx q w).1 = response_of json_Unmarshal pCtx q.
Proof.
  unfold query, response_of. destruct (json_Unmarshal (JSON q)) as [qm|e]; [|done].
  unfold bind, ret, setChannelConfig.
  destruct (mergeQueryParams iter (QueryParams qm) w). cbn [fst Error Frames app].
  rewrite Channel_String_datasource by apply Join_Clean_nonempty. reflexivity.
Qed.

Lemma query_registry_dom (pCtx : PluginContext) (q : DataQuery) (w : World) :
  dom (channelConfigs (wsds (query json_Unmarshal iter pCtx q w).2))
  = match json_Unmarshal (JSON q) with
    | inl qm => {[ channel_key qm q ]} ∪ dom (channelConfigs (wsds w))
    | inr _ => dom (channelConfigs (wsds w))
    end.
Proof.
  unfold query. destruct (json_Unmarshal (JSON q)) as [qm|e]; [|done].
  unfold bind, ret, setChannelConfig.
  pose proof (mergeQueryParams_preserves iter (QueryParams qm) w) as H.
  destruct (mergeQueryParams iter (QueryParams qm) w) as [merged w1].
  destruct H as (_ & _ & Hds & _). simpl. rewrite Hds.
  by rewrite dom_insert_L.
Qed.

Lemma QueryData_loop_result (pCtx : PluginContext) (queries : list DataQuery) :
  forall (responses : gmap string DataResponse) (w : World),
    (QueryData_loop json_Unmarshal iter pCtx queries responses w).1
    = foldl (fun acc q => <[RefID q := response_of json_Unmarshal pCtx q]> acc)
            responses queries
    /\ dom (channelConfigs
              (wsds (QueryData_loop json_Unmarshal iter pCtx queries responses w).2))
       = dom (channelConfigs (wsds w)) ∪ registered_keys json_Unmarshal queries.
Proof.
  induction queries as [|q queries IH]; intros responses w; simpl.
  - split; [done|]. unfold registered_keys. simpl.
    by rewrite (right_id_L ∅ (∪)).
  - unfold bind.
    pose proof (query_response pCtx q w) as Hresp.
    pose proof (query_registry_dom pCtx q w) as Hdom.
    destruct (query json_Unmarshal iter pCtx q w) as [res w1]. simpl in *.
    subst res. destruct (IH (<[RefID q := response_of json_Unmarshal pCtx q]> responses) w1)
      as [IH1 IH2].
    split; [done|]. rewrite IH2, Hdom. unfold registered_keys. simpl.
    destruct (json_Unmarshal (JSON q)); simpl; [|done].
    rewrite (comm_L (∪) {[ _ ]} (dom _)). by rewrite <- (assoc_L (∪)).
Qed.

Lemma responses_fold_lookup (pCtx : PluginContext) (queries : list DataQuery) :
  forall (responses : gmap string DataResponse),
    NoDup (RefID <$> queries) ->
    (forall q, q ∈ queries ->
       foldl (fun acc q => <[RefID q := response_of json_Unmarshal pCtx q]> acc)
             responses queries !! RefID q
       = Some (response_of json_Unmarshal pCtx q))
    /\ (forall r, r ∉ RefID <$> queries ->
          foldl (fun acc q => <[RefID q := response_of json_Unmarshal pCtx q]> acc)
                responses queries !! r
          = responses !! r).
Proof.
  induction queries as [|q0 queries IH]; intros responses Hnd.
  - split; [intros q Hq; by apply elem_of_nil in Hq|done].
  - rewrite fmap_cons in Hnd. apply NoDup_cons in Hnd as [Hnotin Hnd].
    destruct (IH (<[RefID q0 := response_of json_Unmarshal pCtx q0]> responses) Hnd)
      as [IHin IHout].
    split.
    + intros q Hq. simpl. apply elem_of_cons in Hq as [->|Hq].
      * rewrite IHout by done. apply lookup_insert_eq.
      * by apply IHin.
    + intros r Hr. simpl. rewrite fmap_cons in Hr.
      apply not_elem_of_cons in Hr as [Hne Hr].
      rewrite IHout by done. by apply lookup_insert_ne.
Qed.

(** A batch of queries with distinct ref ids: the call returns no error, each
    query gets its own response under its ref id (the decoding error for a
    malformed query; otherwise the frame naming the channel, "ds/<uid>/<path>"
    or "ds/<path>" for an instance without uid) whatever its siblings are,
    no other ref id gets one, and a malformed query leaves the instance as it
    was. *)
Theorem QueryData_answers_each_query (req : QueryDataRequest) (w : World) :
  NoDup (RefID <$> Queries req) ->
  let '(responses, err) := (QueryData json_Unmarshal iter req w).1 in
  err = None
  /\ (forall q, q ∈ Queries req ->
        responses !! RefID q
        = Some (response_of json_Unmarshal (QPluginContext req) q))
  /\ (forall r, r ∉ RefID <$> Queries req -> responses !! r = None)
  /\ (forall q e w0, json_Unmarshal (JSON q) = inr e ->
        query json_Unmarshal iter (QPluginContext req) q w0
        = (mkDataResponse (Some e) [], w0)).
Proof.
  intros Hnd. unfold QueryData, bind, ret.
  pose proof (QueryData_loop_result (QPluginContext req) (Queries req) ∅ w)
    as [Hres _].
  destruct (QueryData_loop json_Unmarshal iter (QPluginContext req)
              (Queries req) ∅ w) as [responses w']. simpl in *. subst responses.
  destruct (responses_fold_lookup (QPluginContext req) (Queries req) ∅ Hnd)
    as [Hin Hout].
  split; [done|]. split; [done|]. split.
  - intros r Hr. by rewrite Hout.
  - intros q e w0 He. by apply query_malformed.
Qed.

(** The registry only grows: after a batch its keys are the keys it had,
    together with the channel path of every query of the batch that
    decodes. *)
Theorem QueryData_registry_keys (req : QueryDataRequest) (w : World) :
  dom (channelConfigs (wsds (QueryData json_Unmarshal iter req w).2))
  = dom (channelConfigs (wsds w))
    ∪ registered_keys json_Unmarshal (Queries req).
Proof.
  unfold QueryData, bind, ret.
  pose proof (QueryData_loop_result (QPluginContext req) (Queries req) ∅ w)
    as [_ Hdom].
  by destruct (QueryData_loop json_Unmarshal iter (QPluginContext req)
                 (Queries req) ∅ w).
Qed.

(** What a stream run does before it reaches its select, in every case: it
    never returns nil; it leaves the maps and the registry alone; it dials at
    most once; when it returns an error its last event is the one error
    frame, whose text is the error itself for a missing channel config and
    "Starting WebSocket: <error>" otherwise; when it starts running it has
    dialled exactly once and sent no frame. *)
Theorem RunStream_outcomes (req : RunStreamRequest) (w : World) :
  let '(res, w') := RunStream' req w in
  maps w' = maps w
  /\ wsds w' = wsds w
  /\ match res with
     | Returned None => False
     | Returned (Some e) =>
         exists dl,
           trace w'
           = trace w ++ dl
             ++ [EvSendFrame
                   (errorFrame
                      match channelConfigs (wsds w) !! RPath req with
                      | Some _ => "Starting WebSocket: " +:+ e
                      | None => e
                      end)]
           /\ (dl = [] \/ exists u h, dl = [EvDial u h])
           /\ (channelConfigs (wsds w) !! RPath req = None -> dl = [])
     | Running s =>
         s = start_sub None /\ exists u h, trace w' = trace w ++ [EvDial u h]
     end.
Proof.
  unfold RunStream, getChannelConfig, NewWsDataProxy, encodeURL, wsConnect,
    read_map, get_ds, sendErrorFrame, emit, bind, ret.
  destruct (channelConfigs (wsds w) !! RPath req) as [cfg|] eqn:Hcfg; simpl.
  - destruct (url_Parse _) as [u|e]; simpl.
    + destruct (Dial _ _) as [|msg resp]; simpl.
      * split; [done|]. split; [done|]. split; [done|]. eauto.
      * split; [done|]. split; [done|].
        eexists [EvDial _ _]. split; [by rewrite <- (assoc_L (++))|].
        split; [right; eauto|done].
    + split; [done|]. split; [done|].
      exists []. split; [done|]. split; [by left|done].
  - split; [done|]. split; [done|].
    exists []. split; [done|]. split; [by left|done].
Qed.

(** The three ways a stream for a registered channel fails to start.  A
    host that does not parse: no dial, and the error "encode URL Error:
    failed to parse host string from the Plugin's Config Editor: <error>".
    A failed handshake: one dial, and the error "connection Error: websocket
    dial failed: <message>", followed, when the upstream answered, by
    " (status <code> <status>)" and, when the first 1024 bytes of the body
    are not blank, by ": " and those bytes trimmed.  Each time the one frame
    sent is the error frame "Starting WebSocket: <error>". *)
Theorem RunStream_start_errors (req : RunStreamRequest) (cfg : channelConfig)
    (w : World) :
  channelConfigs (wsds w) !! RPath req = Some cfg ->
  let host := models.URL (DataSourceInstanceSettings (RPluginContext req)) in
  let failed := fun (dl : list Event) (e : string) =>
    RunStream' req w
    = (Returned (Some e),
       mkWorld (maps w) (wsds w)
         ((trace w ++ dl)
          ++ [EvSendFrame (errorFrame ("Starting WebSocket" +:+ ": " +:+ e))])) in
  (forall perr, url_Parse host = inr perr ->
     failed []
       ("encode URL Error: "
        +:+ "failed to parse host string from the Plugin's Config Editor: "
        +:+ perr))
  /\ (forall u msg resp,
        url_Parse host = inl u ->
        let target :=
          URL_String
            (URL_set u (GoPath.Join [URL_Path u; path cfg])
               (Values_Encode (iter _ (default ∅ (maps w !! queryParams cfg))))) in
        let hdrs := iter _ (default ∅ (maps w !! customHeaders (wsds w))) in
        Dial target hdrs = DialErr msg resp ->
        failed [EvDial target hdrs]
          ("connection Error: " +:+ "websocket dial failed: "
           +:+ match resp with
               | None => msg
               | Some resp =>
                   let body :=
                     match Body resp with
                     | None => ""
                     | Some b => strings_TrimSpace (substring 0 1024 b)
                     end in
                   let msg :=
                     msg +:+ " (status " +:+ pretty (StatusCode resp) +:+ " "
                         +:+ Status resp +:+ ")" in
                   if String.eqb body "" then msg else msg +:+ ": " +:+ body
               end)).
Proof.
  intros Hcfg host failed. subst failed. cbv beta.
  unfold RunStream, getChannelConfig, NewWsDataProxy, encodeURL, wsConnect,
    read_map, get_ds, sendErrorFrame, emit, bind, ret.
  rewrite Hcfg. fold host. split.
  - intros perr Hp. rewrite Hp. cbn [maps wsds trace fst snd].
    by rewrite (right_id_L [] (++)).
  - intros u msg resp Hu Hd. rewrite Hu.
    cbn [maps wsds trace fst snd]. rewrite Hd.
    destruct resp as [resp|]; [|done].
    cbv zeta. by destruct (String.eqb _ "").
Qed.

(** From a query to its stream.  Take an instance whose header map is a
    live map object, and a query that decodes.  Once the query has been
    handled, a stream run for the channel path it registered finds the
    config.  When the configured host parses, the run's first new event is
    the dial of that host joined with the query's path, with the query's
    parameters merged over the instance defaults as the query string and the
    instance's custom headers.  When the host does not parse, nothing is
    dialled: the run's only new event is the error frame "Starting
    WebSocket: encode URL Error: failed to parse host string from the
    Plugin's Config Editor: <error>". *)
Theorem query_then_RunStream_dials (pCtx : PluginContext) (q : DataQuery)
    (qm : queryModel) (w : World) :
  range_ok iter ->
  json_Unmarshal (JSON q) = inl qm ->
  customHeaders (wsds w) ∈ dom (maps w) ->
  let w1 := (query json_Unmarshal iter pCtx q w).2 in
  let w2 := (RunStream' (mkRunStreamRequest pCtx (channel_key qm q)) w1).2 in
  channelConfigs (wsds w1) !! channel_key qm q
  = Some (mkChannelConfig (WsPath qm) (fresh (dom (maps w))))
  /\ maps w1 !! fresh (dom (maps w)) = Some (QueryParams qm ∪ defaults_of w)
  /\ match url_Parse (models.URL (DataSourceInstanceSettings pCtx)) with
     | inl u =>
         exists rest,
           trace w2
           = trace w
             ++ EvDial
                  (URL_String
                     (URL_set u (GoPath.Join [URL_Path u; WsPath qm])
                        (Values_Encode (iter _ (QueryParams qm ∪ defaults_of w)))))
                  (iter _ (default ∅ (maps w !! customHeaders (wsds w))))
                :: rest
     | inr perr =>
         trace w2
         = trace w
           ++ [EvSendFrame
                 (errorFrame
                    ("Starting WebSocket: encode URL Error: "
                     +:+ "failed to parse host string from the Plugin's Config Editor: "
                     +:+ perr))]
     end.
Proof.
  intros Hiter Hjson Hhdr. cbv zeta.
  pose proof (is_fresh (dom (maps w))) as Hfresh.
  set (l := fresh (dom (maps w))) in *.
  assert (Hq : (query json_Unmarshal iter pCtx q w).2
               = mkWorld (<[l := QueryParams qm ∪ defaults_of w]> (maps w))
                   (mkDS (customHeaders (wsds w)) (customQueryParameters (wsds w))
                      (<[channel_key qm q := mkChannelConfig (WsPath qm) l]>
                         (channelConfigs (wsds w))))
                   (trace w)).
  { unfold query. rewrite Hjson. unfold bind at 1.
    rewrite (mergeQueryParams_union iter (QueryParams qm) w Hiter).
    reflexivity. }
  rewrite Hq. cbn [maps wsds channelConfigs].
  split; [apply lookup_insert_eq|]. split; [apply lookup_insert_eq|].
  unfold RunStream, getChannelConfig, NewWsDataProxy, encodeURL, wsConnect,
    read_map, get_ds, sendErrorFrame, emit, bind, ret.
  cbn [maps wsds trace RPath RPluginContext channelConfigs customHeaders
       path queryParams fst snd].
  rewrite lookup_insert_eq. cbn [path queryParams].
  destruct (url_Parse _) as [u|perr]; cbn [maps wsds trace customHeaders fst snd].
  - rewrite lookup_insert_eq. cbn [default].
    rewrite (lookup_insert_ne (maps w) l (customHeaders (wsds w)))
      by (intros E; apply Hfresh; by rewrite E).
    destruct (Dial _ _) as [|msg resp]; cbn [maps wsds trace fst snd].
    + by exists [].
    + eexists [_]. by rewrite <- (assoc_L (++)).
  - reflexivity.
Qed.

End HandlerFacts.

Section InstanceFacts.

Variable json_Unmarshal_settings : string -> gmap string models.any + string.
Variable fmt_Sprint : models.any -> string.
Variable iter : map_iter.
Variable URL : Type.
Variable url_Parse : string -> URL + string.
Variable URL_Path : URL -> string.
Variable URL_set : URL -> string -> string -> URL.
Variable URL_String : URL -> string.
Variable Values_Encode : list (string * string) -> string.
Variable strings_TrimSpace : string -> string.
Variable Dial : string -> list (string * string) -> DialResult.

Local Abbreviation RunStream' :=
  (RunStream iter URL url_Parse URL_Path URL_set URL_String Values_Encode
             strings_TrimSpace Dial).

Lemma RunStream_no_config (req : RunStreamRequest) (w : World) :
  channelConfigs (wsds w) !! RPath req = None ->
  RunStream' req w
  = (Returned (Some ("no channel config found for " +:+ RPath req)),
     mkWorld (maps w) (wsds w)
       (trace w
        ++ [EvSendFrame (errorFrame ("no channel config found for " +:+ RPath req))])).
Proof.
  intros Hnone.
  unfold RunStream, getChannelConfig, get_ds, sendErrorFrame, emit, bind, ret.
  by rewrite Hnone.
Qed.

(** Creating the instance.  Settings that do not decode give the error
    "failed to read CustomSettings from the Query Request: could not
    unmarshal PluginSettings json: <error>".  Otherwise the instance holds
    the loaded headers and the loaded query parameters (its defaults) in two
    distinct map objects, and an empty registry: until a query registers a
    channel, every stream run ends with the missing-config error, its one
    error frame, and no dial. *)
Theorem NewWebSocketDataSource_fresh (ds : models.DataSourceInstanceSettings) :
  match models.LoadPluginSettings json_Unmarshal_settings fmt_Sprint iter ds with
  | inr err =>
      NewWebSocketDataSource iter json_Unmarshal_settings fmt_Sprint ds
      = inr ("failed to read CustomSettings from the Query Request: " +:+ err)
      /\ (forall e, json_Unmarshal_settings (models.JSONData ds) = inr e ->
            err = "could not unmarshal PluginSettings json: " +:+ e)
  | inl settings =>
      exists w,
        NewWebSocketDataSource iter json_Unmarshal_settings fmt_Sprint ds = inl w
        /\ channelConfigs (wsds w) = ∅
        /\ trace w = []
        /\ customHeaders (wsds w) <> customQueryParameters (wsds w)
        /\ maps w !! customHeaders (wsds w) = Some (models.Headers settings)
        /\ defaults_of w = models.QueryParameters settings
        /\ instance_wf w
        /\ forall req,
             RunStream' req w
             = (Returned (Some ("no channel config found for " +:+ RPath req)),
                mkWorld (maps w) (wsds w)
                  [EvSendFrame
                     (errorFrame ("no channel config found for " +:+ RPath req))])
  end.
Proof.
  unfold NewWebSocketDataSource.
  destruct (models.LoadPluginSettings _ _ _ ds) as [settings|err] eqn:Hload.
  - eexists. split; [reflexivity|]. simpl.
    split; [done|]. split; [done|]. split; [done|]. split; [done|].
    split; [done|]. split.
    + split; simpl; [apply elem_of_dom; by eexists|].
      intros k cfg Hk. by rewrite lookup_empty in Hk.
    + intros req. by rewrite RunStream_no_config.
  - split; [done|]. intros e He.
    unfold models.LoadPluginSettings in Hload. rewrite He in Hload.
    by injection Hload as <-.
Qed.

End InstanceFacts.

(** ** The proxy: a running subscription *)

Ltac sub_cases Hstep :=
  simpl in Hstep;
  repeat match type of Hstep with
         | context [match ?x with _ => _ end] => destruct x eqn:?; simpl in Hstep
         end;
  try discriminate Hstep;
  try (injection Hstep as <-).

Section SubMore.

Lemma closes_of_app (evs1 evs2 : list Event) :
  closes_of (evs1 ++ evs2) = closes_of evs1 + closes_of evs2.
Proof. unfold closes_of. by rewrite omap_app, length_app. Qed.

Lemma step_teardown (a : Action) (s s' : Sub) :
  teardown_inv s -> step a s = Some s' -> teardown_inv s'.
Proof.
  intros (Hco & Hmc & Hrl & Hcl) Hstep.
  destruct s as [su se rd rl rf dc mc cd co ev].
  unfold reader_exited in *. cbn [conn_open msgRead_closed relay reader events] in *.
  destruct a; unfold step, RunStream_ctx_done in Hstep; sub_cases Hstep;
    unfold teardown_inv, reader_exited, RunStream_readingErrors,
      proxyMessage_body, readMessage_defer;
    cbn [error_Error]; repeat case_match;
    cbn [conn_open msgRead_closed relay reader events set_sup set_reader
         set_relay set_relay_frame set_done_chan set_msgRead_closed
         set_ctx_done set_conn_open sub_emit] in *;
    subst; rewrite ?closes_of_app; cbn [closes_of omap length Nat.add] in *;
    repeat split; try done; try lia; try (intros; congruence);
    try (intros Hx; specialize (Hrl Hx); discriminate Hrl);
    try (simpl; lia).
Qed.

Lemma run_teardown (acts : list Action) :
  forall s s', teardown_inv s -> run acts s = Some s' -> teardown_inv s'.
Proof.
  induction acts as [|a acts IH]; intros s s' Hinv Hrun; simpl in Hrun.
  - by injection Hrun as <-.
  - destruct (step a s) as [s1|] eqn:Hstep; [|discriminate].
    eapply IH; [|exact Hrun]. eapply step_teardown; eauto.
Qed.

(** Teardown.  In every state a started subscription reaches, the connection
    is open exactly as long as the read loop has not returned, the handoff
    channel is closed exactly when it has, the relay loop has not ended
    before the read loop, and the connection has been closed once if the
    read loop has returned and never otherwise. *)
Theorem subscription_teardown_order (err : error) (acts : list Action) (s : Sub) :
  run acts (start_sub err) = Some s ->
  conn_open s = negb (reader_exited s)
  /\ msgRead_closed s = reader_exited s
  /\ (relay s = PExited -> reader s = RExited)
  /\ closes_of (events s) = (if reader_exited s then 1 else 0).
Proof.
  intros Hrun. apply (run_teardown acts (start_sub err) s); [|done].
  by repeat split.
Qed.

Lemma step_failed (a : Action) (s s' : Sub) :
  reader_failed s = true -> step a s = Some s' ->
  reader_failed s' = true /\ (forall r, a <> ARead r).
Proof.
  intros Hf Hstep.
  destruct s as [su se rd rl rf dc mc cd co ev].
  unfold reader_failed in *. cbn [reader] in *.
  destruct a; unfold step, RunStream_ctx_done in Hstep; sub_cases Hstep;
    unfold RunStream_readingErrors, proxyMessage_body, readMessage_defer;
    cbn [error_Error]; repeat case_match;
    cbn [reader set_sup set_reader set_relay set_relay_frame set_done_chan
         set_msgRead_closed set_ctx_done set_conn_open sub_emit] in *;
    subst; try discriminate; split; try done.
Qed.

Lemma run_failed (acts : list Action) :
  forall s s',
    reader_failed s = true -> run acts s = Some s' ->
    reader_failed s' = true /\ (forall r, ARead r ∉ acts) /\ received acts = [].
Proof.
  induction acts as [|a acts IH]; intros s s' Hf Hrun; simpl in Hrun.
  - injection Hrun as <-. split; [done|]. split; [|done].
    intros r Hr. by apply elem_of_nil in Hr.
  - destruct (step a s) as [s1|] eqn:Hstep; [|discriminate].
    destruct (step_failed a s s1 Hf Hstep) as [Hf1 Ha].
    destruct (IH s1 s' Hf1 Hrun) as (Hf' & Hno & Hrecv).
    split; [done|]. split.
    + intros r Hr. apply elem_of_cons in Hr as [Hr|Hr]; [by apply (Ha r)|].
      by apply (Hno r).
    + destruct a as [|r| | | | | | | |]; try exact Hrecv. by destruct (Ha r).
Qed.

(** No retry and no reconnect: once [ReadMessage] has failed, the read loop
    never calls it again, so no message is received after a read failure
    and there is no second failure. *)
Theorem no_read_after_failure (s0 s : Sub) (acts1 acts2 : list Action)
    (e : string) :
  run (acts1 ++ ARead (inr e) :: acts2) s0 = Some s ->
  (forall r, ARead r ∉ acts2) /\ received acts2 = [] /\ reader_failed s = true.
Proof.
  intros Hrun. rewrite run_app in Hrun.
  destruct (run acts1 s0) as [s1|]; [|discriminate].
  cbn [run] in Hrun. destruct (step (ARead (inr e)) s1) as [s2|] eqn:Hstep;
    [|discriminate].
  assert (Hf : reader_failed s2 = true).
  { destruct s1 as [su se rd rl rf dc mc cd co ev].
    unfold step in Hstep. cbn [reader conn_open] in Hstep.
    destruct rd; try discriminate Hstep.
    destruct co; [|discriminate Hstep]. by injection Hstep as <-. }
  destruct (run_failed acts2 s2 s Hf Hrun) as (Hf' & Hno & Hrecv).
  by repeat split.
Qed.

Lemma cancel_inv_start (err : error) : cancel_inv (start_sub err).
Proof. by split. Qed.

Lemma step_cancel_inv (a : Action) (s s' : Sub) :
  cancel_inv s -> step a s = Some s' -> cancel_inv s'.
Proof.
  intros Hinv Hstep.
  destruct s as [su se rd rl rf dc mc cd co ev].
  unfold cancel_inv, reader_done in *. cbn [sup reader done_chan] in *.
  destruct a; unfold step, RunStream_ctx_done in Hstep; sub_cases Hstep;
    unfold RunStream_readingErrors, proxyMessage_body, readMessage_defer;
    cbn [error_Error]; repeat case_match;
    cbn [sup reader done_chan set_sup set_reader set_relay set_relay_frame
         set_done_chan set_msgRead_closed set_ctx_done set_conn_open sub_emit length
         Nat.ltb Nat.leb app] in *;
    subst; try discriminate; try done;
    repeat match goal with
           | H : _ /\ _ |- _ => destruct H
           end;
    subst; try discriminate; try done;
    try (by injection Hinv).
Qed.

Lemma run_cancel_inv (acts : list Action) :
  forall s s', cancel_inv s -> run acts s = Some s' -> cancel_inv s'.
Proof.
  induction acts as [|a acts IH]; intros s s' Hinv Hrun; simpl in Hrun.
  - by injection Hrun as <-.
  - destruct (step a s) as [s1|] eqn:Hstep; [|discriminate].
    eapply IH; [|exact Hrun]. eapply step_cancel_inv; eauto.
Qed.

Lemma step_after_cancel (a : Action) (s s' : Sub) :
  sup s = SupReturned None -> cancel_inv s -> step a s = Some s' ->
  sup s' = SupReturned None
  /\ length (received [a]) + read_budget s' <= read_budget s.
Proof.
  intros Hsup Hinv Hstep.
  destruct s as [su se rd rl rf dc mc cd co ev].
  unfold cancel_inv, reader_done, read_budget in *.
  cbn [sup reader done_chan] in *. subst su.
  destruct a; unfold step, RunStream_ctx_done in Hstep; sub_cases Hstep;
    unfold RunStream_readingErrors, proxyMessage_body, readMessage_defer,
      received;
    cbn [sup reader done_chan set_sup set_reader set_relay set_relay_frame
         set_done_chan set_msgRead_closed set_ctx_done set_conn_open sub_emit
         omap length] in *;
    subst; try discriminate; split; try done; simpl; try lia.
Qed.

Lemma run_after_cancel (acts : list Action) :
  forall s s',
    sup s = SupReturned None -> cancel_inv s -> run acts s = Some s' ->
    sup s' = SupReturned None
    /\ length (received acts) + read_budget s' <= read_budget s.
Proof.
  induction acts as [|a acts IH]; intros s s' Hsup Hinv Hrun; simpl in Hrun.
  - injection Hrun as <-. split; [done|]. simpl. lia.
  - destruct (step a s) as [s1|] eqn:Hstep; [|discriminate].
    destruct (step_after_cancel a s s1 Hsup Hinv Hstep) as [Hsup1 Hb1].
    destruct (IH s1 s' Hsup1 (step_cancel_inv a s s1 Hinv Hstep) Hrun)
      as [Hsup' Hb].
    split; [done|].
    change (a :: acts) with ([a] ++ acts). rewrite received_app, length_app. lia.
Qed.

(** After a cancellation.  Once [RunStream] has returned nil, the read loop
    receives at most one more message, and none unless it was inside
    [ReadMessage] at that moment; [RunStream] stays returned. *)
Theorem at_most_one_message_after_cancel (err : error)
    (acts1 acts2 : list Action) (s1 s2 : Sub) :
  run acts1 (start_sub err) = Some s1 ->
  sup s1 = SupReturned None ->
  run acts2 s1 = Some s2 ->
  length (received acts2) <= 1
  /\ (reader s1 <> RReading -> received acts2 = [])
  /\ sup s2 = SupReturned None.
Proof.
  intros Hrun1 Hsup Hrun2.
  pose proof (run_cancel_inv acts1 _ _ (cancel_inv_start err) Hrun1) as Hinv.
  destruct (run_after_cancel acts2 s1 s2 Hsup Hinv Hrun2) as [Hsup2 Hb].
  assert (Hb1 : read_budget s1 <= 1).
  { unfold read_budget. destruct (reader s1); lia. }
  split; [lia|]. split; [|done].
  intros Hrd. assert (read_budget s1 = 0) as E.
  { unfold read_budget. by destruct (reader s1). }
  apply length_zero_iff_nil. lia.
Qed.

End SubMore.

(** ** [path.Clean] keeps a path rooted or relative *)

Section RootedFacts.

Import GoPath.

Lemma backtrack_ge (buf : list ascii) (dotdot : nat) (fuel : nat) :
  forall w, dotdot <= w -> dotdot <= backtrack fuel buf w dotdot.
Proof.
  induction fuel as [|fuel IH]; intros w Hw; simpl; [done|].
  destruct (dotdot <? w) eqn:Hlt; simpl; [|done].
  destruct (negb (is_slash (nth w buf slash))); [|done].
  apply Nat.ltb_lt in Hlt. apply IH. lia.
Qed.

Lemma rooted_bytes_app (l1 l2 : list ascii) :
  l1 <> [] -> rooted_bytes (l1 ++ l2) = rooted_bytes l1.
Proof. by destruct l1. Qed.

Lemma rooted_bytes_take (l : list ascii) (w : nat) :
  1 <= w -> rooted_bytes (take w l) = rooted_bytes l.
Proof. intros Hw. destruct w; [lia|]. by destruct l. Qed.

Lemma rooted_bytes_take_false (l : list ascii) (w : nat) :
  rooted_bytes l = false -> rooted_bytes (take w l) = false.
Proof. intros H. destruct w, l; done. Qed.

Lemma clean_loop_rooted (fuel : nat) :
  forall (rest out : list ascii) (dotdot : nat),
    1 <= dotdot -> rooted_bytes out = true ->
    rooted_bytes (clean_loop fuel true rest out dotdot) = true.
Proof.
  induction fuel as [|fuel IH]; intros rest out dotdot Hdd Hout; [done|].
  destruct rest as [|c rest1]; [done|]. cbn [clean_loop].
  destruct (is_slash c) eqn:Hc; [by apply IH|].
  destruct (is_dot c && ends_element rest1); [by apply IH|].
  destruct (is_dot c && is_dot (hd slash rest1) && ends_element (tl rest1)).
  - destruct (dotdot <? length out) eqn:Hlt.
    + apply IH; [done|]. rewrite rooted_bytes_take; [done|].
      apply Nat.ltb_lt in Hlt.
      pose proof (backtrack_ge out dotdot (length out) (length out - 1)). lia.
    + cbn [negb]. by apply IH.
  - destruct (copy_element (c :: rest1)) as [el rest'].
    apply IH; [done|].
    assert (Hne : out <> []) by (by destruct out).
    destruct (true && negb (length out =? 1) || negb true && negb (length out =? 0)).
    + rewrite <- (assoc_L (++)). by rewrite rooted_bytes_app.
    + by rewrite rooted_bytes_app.
Qed.

Lemma clean_loop_relative (fuel : nat) :
  forall (rest out : list ascii) (dotdot : nat),
    rooted_bytes out = false ->
    rooted_bytes (clean_loop fuel false rest out dotdot) = false.
Proof.
  induction fuel as [|fuel IH]; intros rest out dotdot Hout; [done|].
  destruct rest as [|c rest1]; [done|]. cbn [clean_loop].
  destruct (is_slash c) eqn:Hc; [by apply IH|].
  destruct (is_dot c && ends_element rest1); [by apply IH|].
  destruct (is_dot c && is_dot (hd slash rest1) && ends_element (tl rest1)).
  - destruct (dotdot <? length out) eqn:Hlt.
    + apply IH. by apply rooted_bytes_take_false.
    + cbn [negb]. apply IH. by destruct out.
  - cbn [copy_element]. rewrite Hc.
    destruct (copy_element rest1) as [el rest'].
    apply IH. by destruct out.
Qed.

Lemma Clean_bytes_rooted (l : list ascii) :
  Clean_bytes l <> [] /\ rooted_bytes (Clean_bytes l) = rooted_bytes l.
Proof.
  unfold Clean_bytes. destruct l as [|c l]; [done|]. cbn [rooted_bytes tl].
  destruct (is_slash c) eqn:Hc.
  - pose proof (clean_loop_rooted (length (c :: l)) l [slash] 1 (le_n _) eq_refl)
      as H.
    destruct (clean_loop _ true l [slash] 1); [discriminate H|done].
  - pose proof (clean_loop_relative (length (c :: l)) (c :: l) [] 0 eq_refl) as H.
    by destruct (clean_loop _ false (c :: l) [] 0).
Qed.

Lemma rooted_path_bytes (l : list ascii) :
  rooted_path (string_of_list_ascii l) = rooted_bytes l.
Proof. by destruct l. Qed.

Lemma rooted_bytes_path (s : string) :
  rooted_bytes (list_ascii_of_string s) = rooted_path s.
Proof. by destruct s. Qed.

Lemma Clean_rooted (p : string) :
  Clean p <> "" /\ rooted_path (Clean p) = rooted_path p.
Proof.
  unfold Clean. destruct (Clean_bytes_rooted (list_ascii_of_string p)) as [Hne Hr].
  split.
  - intros E. apply Hne. rewrite <- (list_ascii_of_string_of_list_ascii (Clean_bytes _)).
    by rewrite E.
  - by rewrite rooted_path_bytes, Hr, rooted_bytes_path.
Qed.

Lemma Clean_shape_nonempty (p : string) : Clean p <> "".
Proof. by destruct (Clean_rooted p). Qed.

(** The channel path a query registers is never empty, and it is rooted
    exactly when the query's path is: a relative query path (the empty one
    included) gives a relative channel path. *)
Theorem channel_key_rooted (qm : queryModel) (q : DataQuery) :
  channel_key qm q <> ""
  /\ rooted_path (channel_key qm q) = rooted_path (WsPath qm).
Proof.
  unfold channel_key.
  destruct (Clean_rooted (WsPath qm)) as [Hne Hr].
  assert (HJ : Join [Clean (WsPath qm); RefID q]
               = Clean ((Clean (WsPath qm) +:+ "/") +:+ RefID q)).
  { destruct (Clean (WsPath qm)) as [|c s]; [done|]. reflexivity. }
  rewrite HJ.
  destruct (Clean_rooted ((Clean (WsPath qm) +:+ "/") +:+ RefID q)) as [Hne' Hr'].
  split; [done|]. rewrite Hr', <- Hr.
  by destruct (Clean (WsPath qm)).
Qed.

End RootedFacts.

(** ** [path.Clean] leaves no empty segment *)

Section ShapeFacts.

Import GoPath.

Lemma ends_slash_cons (c : ascii) (l : list ascii) :
  l <> [] -> ends_slash (c :: l) = ends_slash l.
Proof. by destruct l. Qed.

Lemma ends_slash_snoc (l : list ascii) (c : ascii) :
  ends_slash (l ++ [c]) = is_slash c.
Proof.
  induction l as [|c1 l IH]; [done|].
  rewrite <- app_comm_cons, ends_slash_cons; [done|]. by destruct l.
Qed.

Lemma ends_slash_app (l1 l2 : list ascii) :
  l2 <> [] -> ends_slash (l1 ++ l2) = ends_slash l2.
Proof.
  intros Hne. induction l1 as [|c l1 IH]; [done|].
  rewrite <- app_comm_cons, ends_slash_cons; [done|].
  by destruct l1, l2.
Qed.

Lemma no_double_slash_snoc (l : list ascii) (c : ascii) :
  no_double_slash (l ++ [c])
  = no_double_slash l && negb (ends_slash l && is_slash c).
Proof.
  induction l as [|c1 l IH]; [done|].
  destruct l as [|c2 l].
  - simpl. by rewrite !andb_true_r.
  - change ((c1 :: c2 :: l) ++ [c]) with (c1 :: (c2 :: l) ++ [c]).
    cbn [no_double_slash]. rewrite <- app_comm_cons. rewrite app_comm_cons, IH.
    rewrite (ends_slash_cons c1 (c2 :: l)) by done.
    cbn [no_double_slash]. by rewrite andb_assoc.
Qed.

Lemma ends_slash_noslash (el : list ascii) :
  forallb (fun c => negb (is_slash c)) el = true -> ends_slash el = false.
Proof.
  induction el as [|c el IH]; [done|]. cbn [forallb]. intros H.
  apply andb_prop in H as [Hc Hel]. apply negb_true_iff in Hc.
  destruct el; [done|]. rewrite ends_slash_cons by done. by apply IH.
Qed.

Lemma no_double_slash_app_noslash (el : list ascii) :
  forall l,
    forallb (fun c => negb (is_slash c)) el = true ->
    no_double_slash (l ++ el) = no_double_slash l.
Proof.
  induction el as [|c el IH]; intros l H.
  - by rewrite (right_id_L [] (++)).
  - cbn [forallb] in H. apply andb_prop in H as [Hc Hel].
    apply negb_true_iff in Hc.
    change (l ++ c :: el) with (l ++ [c] ++ el).
    rewrite (assoc_L (++)), IH by done.
    rewrite no_double_slash_snoc, Hc. by rewrite andb_false_r, andb_true_r.
Qed.

Lemma no_double_slash_take (l : list ascii) :
  forall w, no_double_slash l = true -> no_double_slash (take w l) = true.
Proof.
  induction l as [|c1 l IH]; intros w H; [by destruct w|].
  destruct w as [|w]; [done|]. cbn [no_double_slash] in H.
  apply andb_prop in H as [H1 H2]. cbn [take firstn no_double_slash].
  rewrite (IH w H2), andb_true_r.
  destruct l as [|c2 l]; [by destruct w|]. by destruct w.
Qed.

Lemma ends_slash_take_at_slash (l : list ascii) :
  forall w,
    no_double_slash l = true -> w < length l ->
    is_slash (nth w l slash) = true ->
    ends_slash (take w l) = false.
Proof.
  induction l as [|c1 l IH]; intros w Hnd Hw Hs; [simpl in Hw; lia|].
  destruct w as [|w]; [done|]. simpl in Hw. cbn [nth] in Hs.
  cbn [no_double_slash] in Hnd. apply andb_prop in Hnd as [H1 H2].
  cbn [take firstn]. destruct w as [|w].
  - destruct l as [|c2 l]; [simpl in Hw; lia|]. cbn [nth] in Hs.
    cbn [firstn ends_slash]. rewrite Hs, andb_true_r in H1.
    by apply negb_true_iff in H1.
  - destruct l as [|c2 l]; [simpl in Hw; lia|].
    rewrite ends_slash_cons by done. apply IH; [done|lia|done].
Qed.

Lemma ends_slash_take_nth (l : list ascii) :
  forall w, 0 < w -> w <= length l ->
    ends_slash (take w l) = is_slash (nth (w - 1) l slash).
Proof.
  induction l as [|c1 l IH]; intros w Hw Hl; [simpl in Hl; lia|].
  destruct w as [|w]; [lia|]. simpl in Hl. cbn [take firstn].
  destruct w as [|w]; [by destruct l|].
  destruct l as [|c2 l]; [simpl in Hl; lia|].
  rewrite ends_slash_cons by done. rewrite IH by (simpl in *; lia).
  by replace (S (S w) - 1) with (S (S w - 1)) by lia.
Qed.

Lemma backtrack_spec (buf : list ascii) (dotdot : nat) (fuel : nat) :
  forall w, dotdot <= w -> w - dotdot <= fuel ->
    dotdot <= backtrack fuel buf w dotdot <= w
    /\ (backtrack fuel buf w dotdot = dotdot
        \/ is_slash (nth (backtrack fuel buf w dotdot) buf slash) = true).
Proof.
  induction fuel as [|fuel IH]; intros w Hw Hf; simpl.
  - split; [lia|]. left. lia.
  - destruct (dotdot <? w) eqn:Hlt; simpl.
    + apply Nat.ltb_lt in Hlt.
      destruct (is_slash (nth w buf slash)) eqn:Hs; simpl.
      * split; [lia|]. by right.
      * destruct (IH (w - 1)) as [Hr Hc]; [lia|lia|]. split; [lia|done].
    + apply Nat.ltb_ge in Hlt. split; [lia|]. left. lia.
Qed.

Lemma copy_element_noslash (rest : list ascii) :
  forallb (fun c => negb (is_slash c)) (copy_element rest).1 = true.
Proof.
  induction rest as [|c rest IH]; [done|]. simpl.
  destruct (is_slash c) eqn:Hc; [done|].
  destruct (copy_element rest) as [el tl']. simpl in *. by rewrite Hc.
Qed.

Lemma nth_last_two (l : list ascii) (a b : ascii) :
  nth (length (l ++ [a; b]) - 1) (l ++ [a; b]) slash = b.
Proof.
  rewrite length_app. simpl.
  replace (length l + 2 - 1) with (length l + 1) by lia.
  rewrite app_nth2 by lia. by replace (length l + 1 - length l) with 1 by lia.
Qed.

Lemma clean_loop_shape (rooted : bool) (fuel : nat) :
  forall (rest out : list ascii) (dotdot : nat),
    clean_inv rooted out dotdot ->
    exists dotdot',
      clean_inv rooted (clean_loop fuel rooted rest out dotdot) dotdot'.
Proof.
  induction fuel as [|fuel IH]; intros rest out dotdot Hinv; [by exists dotdot|].
  destruct rest as [|c rest1]; [by exists dotdot|]. cbn [clean_loop].
  destruct (is_slash c) eqn:Hc; [by apply IH|].
  destruct (is_dot c && ends_element rest1); [by apply IH|].
  destruct Hinv as (Hnd & Hend & Hdd & Hroot).
  destruct (is_dot c && is_dot (hd slash rest1) && ends_element (tl rest1)).
  - destruct (dotdot <? length out) eqn:Hlt.
    + (* backtrack *)
      apply Nat.ltb_lt in Hlt. apply IH.
      destruct (backtrack_spec out dotdot (length out) (length out - 1))
        as [Hr Hstop]; [lia|lia|].
      set (r := backtrack (length out) out (length out - 1) dotdot) in *.
      split; [by apply no_double_slash_take|].
      split; [|split].
      * intros He. destruct Hstop as [Hrd|Hs].
        -- destruct rooted.
           ++ destruct Hroot as [-> Hro]. split; [done|].
              rewrite Hrd. destruct out as [|c0 out]; [done|].
              cbn [rooted_bytes] in Hro. by rewrite (is_slash_eq c0 Hro).
           ++ rewrite Hrd in He.
              destruct (decide (dotdot = 0)) as [Hz|Hnz];
                [rewrite Hz in He; done|].
              destruct Hroot as [Hz|Hns]; [done|].
              rewrite ends_slash_take_nth in He by lia. congruence.
        -- rewrite ends_slash_take_at_slash in He; [done|done|lia|done].
      * rewrite length_firstn. lia.
      * destruct rooted.
        -- destruct Hroot as [-> Hro]. split; [done|].
           rewrite rooted_bytes_take; [done|lia].
        -- destruct (decide (dotdot = 0)) as [Hz|Hnz]; [by left|].
           destruct Hroot as [Hz|Hns]; [done|]. right.
           rewrite nth_firstn.
           assert ((dotdot - 1 <? r) = true) as -> by (apply Nat.ltb_lt; lia).
           done.
    + apply Nat.ltb_ge in Hlt. destruct rooted; cbn [negb].
      * apply IH. exact (conj Hnd (conj Hend (conj Hdd Hroot))).
      * (* append the .. element *)
        apply IH.
        assert (Hne : ends_slash out = false).
        { destruct (ends_slash out); [by destruct Hend|done]. }
        set (out1 := if 0 <? length out then out ++ [slash] else out).
        assert (Hnd1 : no_double_slash out1 = true).
        { unfold out1. destruct (0 <? length out); [|done].
          by rewrite no_double_slash_snoc, Hnd, Hne. }
        split; [by rewrite no_double_slash_app_noslash|].
        split; [|split].
        -- rewrite ends_slash_app by done. done.
        -- done.
        -- right. by rewrite nth_last_two.
  - (* a real path element *)
    pose proof (copy_element_noslash (c :: rest1)) as Hel.
    assert (Hnil : (copy_element (c :: rest1)).1 <> []).
    { cbn [copy_element]. rewrite Hc. by destruct (copy_element rest1). }
    destruct (copy_element (c :: rest1)) as [el rest']. cbn [fst] in Hel, Hnil.
    apply IH.
    set (sep := rooted && negb (length out =? 1)
                || negb rooted && negb (length out =? 0)).
    assert (Hsep : sep = true -> ends_slash out = false /\ out <> []).
    { unfold sep. intros Hs. destruct (ends_slash out) eqn:E.
      - destruct (Hend eq_refl) as [-> ->]. done.
      - split; [done|]. intros ->. destruct rooted; [|done].
        by destruct Hroot as [_ Hro]. }
    split; [|split; [|split]].
    + destruct sep.
      * destruct (Hsep eq_refl) as [He _].
        rewrite no_double_slash_app_noslash by done.
        by rewrite no_double_slash_snoc, Hnd, He.
      * by rewrite no_double_slash_app_noslash.
    + rewrite ends_slash_app by done. by rewrite ends_slash_noslash.
    + rewrite length_app. destruct sep; rewrite ?length_app; lia.
    + destruct rooted.
      * destruct Hroot as [-> Hro]. split; [done|].
        assert (out <> []) by (by destruct out).
        destruct sep; rewrite <- ?(assoc_L (++)); by rewrite rooted_bytes_app.
      * destruct (decide (dotdot = 0)) as [Hz|Hnz]; [by left|].
        destruct Hroot as [Hz|Hns]; [done|]. right.
        destruct sep; rewrite <- ?(assoc_L (++)); rewrite app_nth1 by lia; done.
Qed.

Lemma Clean_bytes_shape (l : list ascii) :
  no_double_slash (Clean_bytes l) = true
  /\ (ends_slash (Clean_bytes l) = true -> Clean_bytes l = [slash]).
Proof.
  unfold Clean_bytes. destruct l as [|c l]; [done|]. cbn [tl].
  destruct (is_slash c).
  - destruct (clean_loop_shape true (length (c :: l)) l [slash] 1)
      as (dd & Hnd & Hend & _); [by repeat split|].
    destruct (clean_loop _ true l [slash] 1) as [|c0 out]; [done|].
    split; [done|]. intros He. by destruct (Hend He).
  - destruct (clean_loop_shape false (length (c :: l)) (c :: l) [] 0)
      as (dd & Hnd & Hend & _); [repeat split; try done; by left|].
    destruct (clean_loop _ false (c :: l) [] 0) as [|c0 out]; [done|].
    split; [done|]. intros He. by destruct (Hend He).
Qed.

Lemma Clean_shape (p : string) : clean_shape (Clean p).
Proof.
  unfold clean_shape, Clean.
  rewrite list_ascii_of_string_of_list_ascii.
  destruct (Clean_bytes_shape (list_ascii_of_string p)) as [Hnd Hend].
  split; [done|]. intros He. by rewrite (Hend He).
Qed.

(** Every path [path.Join] builds is empty or has no empty segment; so the
    channel path a query registers, and the upstream path [encodeURL] joins,
    contain no repeated separator and end in a separator only when they are
    "/" itself. *)
Theorem joined_paths_have_no_empty_segment (elem : list string)
    (qm : queryModel) (q : DataQuery) :
  (Join elem = "" \/ clean_shape (Join elem))
  /\ clean_shape (channel_key qm q).
Proof.
  assert (HJ : forall elem, Join elem = "" \/ clean_shape (Join elem)).
  { intros e. unfold Join. destruct (_ =? 0); [by left|]. right.
    apply Clean_shape. }
  split; [apply HJ|].
  destruct (HJ [Clean (WsPath qm); RefID q]) as [E|H]; [|done].
  exfalso. revert E. unfold Join.
  destruct (Clean (WsPath qm)) as [|c s] eqn:Ec.
  - by destruct (Clean_shape_nonempty (WsPath qm)).
  - cbn [foldr String.length Nat.add Nat.eqb].
    intros E. by destruct (Clean_shape_nonempty (join_buf "" [String c s; RefID q])).
Qed.

End ShapeFacts.

(** ** Instances of the properties above *)

Lemma raw_structured_no_legacy :
  forall k, is_Some (raw_structured !! k) -> is_legacy_key k = false.
Proof.
  intros k [v Hk]. unfold raw_structured in Hk.
  apply lookup_insert_Some in Hk as [[<- _]|[_ Hk]]; [reflexivity|].
  apply lookup_singleton_Some in Hk as [<- _]. reflexivity.
Qed.

Lemma LoadPluginSettings_structured_only_witness :
  models.LoadPluginSettings (fun _ => inl raw_structured) (fun _ => "") iter0
    ds_settings
  = inl (models.mkSettings "/ws" {[ "X-A" := "v" ]} ∅
           (Some (models.mkSecret "" ∅))).
Proof.
  rewrite (LoadPluginSettings_structured_only (fun _ => inl raw_structured)
             (fun _ => "") iter0 range_ok_map_to_list ds_settings raw_structured
             eq_refl raw_structured_no_legacy).
  reflexivity.
Defined.

Lemma raw_overlap_unique_key :
  forall k v, raw_overlap "X-Auth" "structured" !! k = Some v ->
    k <> "headerName" +:+ "1" ->
    models.hasPrefix k "headerName" = true ->
    models.toString (fun _ => "") v <> "X-Auth".
Proof.
  intros k v Hk Hne Hp. unfold raw_overlap in Hk.
  apply lookup_insert_Some in Hk as [[<- _]|[_ Hk]]; [discriminate Hp|].
  apply lookup_singleton_Some in Hk as [<- _]. by destruct Hne.
Qed.

Lemma LoadPluginSettings_legacy_key_witness :
  exists st,
    models.LoadPluginSettings (fun _ => inl (raw_overlap "X-Auth" "structured"))
      (fun _ => "") iter0 source_overlap = inl st
    /\ models.Headers st !! "X-Auth" = Some "legacy".
Proof.
  destruct (LoadPluginSettings_legacy_key
              (fun _ => inl (raw_overlap "X-Auth" "structured")) (fun _ => "")
              iter0 range_ok_map_to_list source_overlap
              (raw_overlap "X-Auth" "structured") "1" "X-Auth"
              (models.AString "X-Auth") eq_refl eq_refl)
    as (st & Hst & Hh & _); [discriminate|].
  exists st. split; [exact Hst|].
  exact (Hh eq_refl raw_overlap_unique_key).
Defined.

Lemma NoDup_req_bar : NoDup (RefID <$> Queries req_bar).
Proof. apply NoDup_singleton. Qed.

Lemma QueryData_answers_each_query_witness :
  NoDup (RefID <$> Queries req_bar)
  /\ (QueryData json_bar iter0 req_bar world_reg).1.1 !! "B"
     = Some (mkDataResponse None
               [mkFrame "response" [] (Some (mkFrameMeta "ds/uid1/bar/B"))]).
Proof.
  split; [exact NoDup_req_bar|].
  pose proof (QueryData_answers_each_query json_bar iter0 req_bar world_reg
                NoDup_req_bar) as H.
  destruct ((QueryData json_bar iter0 req_bar world_reg).1) as [responses err].
  destruct H as (_ & H & _).
  exact (H (mkDataQuery "B" "{}") (list_elem_of_here _ _)).
Defined.

Lemma RunStream_start_errors_witness :
  channelConfigs (wsds world_reg) !! "foo/A" = Some (mkChannelConfig "foo" 3%positive)
  /\ (RunStream403 (req_stream "foo/A") world_reg).1
     = Returned
         (Some "connection Error: websocket dial failed: bad handshake (status 403 403 Forbidden):  denied ").
Proof.
  split; [reflexivity|].
  pose proof (RunStream_start_errors iter0 string inl (fun _ => "") URL_set0
                (fun u => u) (fun _ => "") (fun b => b)
                (fun _ _ => DialErr "bad handshake"
                              (Some (mkResponse 403 "403 Forbidden" (Some " denied "))))
                (req_stream "foo/A") (mkChannelConfig "foo" 3%positive) world_reg
                eq_refl) as [_ H].
  specialize (H "ws://example.org/base" "bad handshake"
                (Some (mkResponse 403 "403 Forbidden" (Some " denied ")))
                eq_refl eq_refl).
  unfold RunStream403. rewrite H. reflexivity.
Defined.

Lemma query_then_RunStream_dials_witness :
  exists rest,
    trace (RunStream0 (req_stream "foo/A")
             (query json_foo iter0 (mkPluginContext ds_settings)
                    (mkDataQuery "A" "{}") world_reg).2).2
    = EvDial "ws://example.org/basefoo?" [] :: rest.
Proof.
  destruct (query_then_RunStream_dials json_foo iter0 string inl (fun _ => "")
              URL_set0 (fun u => u) (fun _ => "") (fun b => b)
              (fun _ _ => DialOk)
              (mkPluginContext ds_settings) (mkDataQuery "A" "{}")
              (mkQueryModel "foo/" ∅) world_reg
              range_ok_map_to_list eq_refl)
    as (_ & _ & rest & Hrest).
  { apply elem_of_dom. by eexists. }
  exists rest. exact Hrest.
Defined.

Lemma run_cancel_late :
  run (acts_cancel ++ acts_late) (start_sub None)
  = Some (mkSub (SupReturned None) None RExited PRecv (NewFrame "response")
                [] true true false
                [EvSendFrame (responseFrame "late"); EvConnClose]).
Proof. reflexivity. Qed.

Lemma subscription_teardown_order_witness :
  exists s,
    run (acts_cancel ++ acts_late) (start_sub None) = Some s
    /\ conn_open s = false
    /\ msgRead_closed s = true
    /\ closes_of (events s) = 1.
Proof.
  eexists. split; [exact run_cancel_late|].
  destruct (subscription_teardown_order None (acts_cancel ++ acts_late) _
              run_cancel_late)
    as (Hco & Hmc & _ & Hcl).
  split; [exact Hco|]. split; [exact Hmc|exact Hcl].
Defined.

Lemma run_acts_cancel :
  run acts_cancel (start_sub None)
  = Some (mkSub (SupReturned None) None RReading PRecv (NewFrame "response")
                [true] false true true []).
Proof. reflexivity. Qed.

Lemma run_acts_late :
  run acts_late (mkSub (SupReturned None) None RReading PRecv (NewFrame "response")
                       [true] false true true [])
  = Some (mkSub (SupReturned None) None RExited PRecv (NewFrame "response")
                [] true true false
                [EvSendFrame (responseFrame "late"); EvConnClose]).
Proof. reflexivity. Qed.

Lemma at_most_one_message_after_cancel_witness :
  received acts_late = ["late"] /\ length (received acts_late) <= 1.
Proof.
  split; [reflexivity|].
  exact (proj1 (at_most_one_message_after_cancel None acts_cancel acts_late _ _
                  run_acts_cancel eq_refl run_acts_late)).
Defined.

Lemma run_failure_prefix :
  run ([AReaderSelect] ++ ARead (inr "EOF") :: [AReaderSleep]) (start_sub None)
  = Some (mkSub SupSelect None (RSendErr "Error reading the websocket: EOF")
                PRecv (NewFrame "response") [] false false true [EvSleep 3]).
Proof. reflexivity. Qed.

Lemma no_read_after_failure_witness :
  received [AReaderSleep] = [] /\ forall r, ARead r ∉ [AReaderSleep].
Proof.
  destruct (no_read_after_failure _ _ [AReaderSelect] [AReaderSleep]
              "EOF" run_failure_prefix) as (Hno & Hrecv & _).
  split; [exact Hrecv|exact Hno].
Defined.

(** * Worked examples *)

(** [path.Clean] and [path.Join] on the cases of Go's documentation. *)
Example clean1 : GoPath.Clean "foo/" = "foo". Proof. reflexivity. Qed.
Example clean2 : GoPath.Clean "" = ".". Proof. reflexivity. Qed.
Example clean3 : GoPath.Clean "a/b/../../../c//d/./" = "../c/d". Proof. reflexivity. Qed.
Example clean4 : GoPath.Clean "/../a/b/.." = "/a". Proof. reflexivity. Qed.
Example clean5 : GoPath.Clean "abc/def/../../.." = "..". Proof. reflexivity. Qed.
Example clean6 : GoPath.Clean "/abc/def/../../.." = "/". Proof. reflexivity. Qed.
Example clean7 : GoPath.Clean "abc/..//" = ".". Proof. reflexivity. Qed.
Example join1 : GoPath.Join ["foo"; "A"] = "foo/A". Proof. reflexivity. Qed.
Example join2 : GoPath.Join ["."; "B"] = "B". Proof. reflexivity. Qed.
Example join3 : GoPath.Join [""; ""] = "". Proof. reflexivity. Qed.
Example join4 : GoPath.Join ["a"; ""] = "a". Proof. reflexivity. Qed.
Example join5 : GoPath.Join ["/"; "A"] = "/A". Proof. reflexivity. Qed.

(** The helpers of settings.go. *)
Example split1 : models.splitOnName "headerName1" = ["header"; "1"]. Proof. reflexivity. Qed.
Example split2 : models.splitOnName "queryParamName12" = ["queryParam"; "12"]. Proof. reflexivity. Qed.
Example split3 : models.splitOnName "headerNam" = ["headerNam"]. Proof. reflexivity. Qed.
Example pre1 : models.hasPrefix "headerName1" "headerName" = true. Proof. reflexivity. Qed.
Example pre2 : models.hasPrefix "header" "headerName" = false. Proof. reflexivity. Qed.
Example idx1 : models.indexOf "headerName1" "Name" = 6%Z. Proof. reflexivity. Qed.
Example idx2 : models.indexOf "abc" "Name" = (-1)%Z. Proof. reflexivity. Qed.
Example idx3 : models.indexOf "Name" "Name" = 0%Z. Proof. reflexivity. Qed.

(** The frontend builds the same channel path for these queries
    ([buildChannelPath] in datasource.ts): "foo/A", "B", "B". *)
Example key_foo_A :
  channel_key (mkQueryModel "foo/" ∅) (mkDataQuery "A" "{}") = "foo/A".
Proof. reflexivity. Qed.
Example key_empty_B :
  channel_key (mkQueryModel "" ∅) (mkDataQuery "B" "{}") = "B".
Proof. reflexivity. Qed.
Example key_dot_B :
  channel_key (mkQueryModel "." ∅) (mkDataQuery "B" "{}") = "B".
Proof. reflexivity. Qed.
Example key_repeated :
  channel_key (mkQueryModel "a//b///" ∅) (mkDataQuery "C" "{}") = "a/b/C".
Proof. reflexivity. Qed.

(** [Channel.String] leaves an empty namespace, and an empty path, out
    together with its separator. *)
Example channel_uid :
  Channel_String (mkLiveChannel ScopeDatasource "uid1" "foo/A") = "ds/uid1/foo/A".
Proof. reflexivity. Qed.
Example channel_no_uid :
  Channel_String (mkLiveChannel ScopeDatasource "" "foo/A") = "ds/foo/A".
Proof. reflexivity. Qed.
Example channel_no_path :
  Channel_String (mkLiveChannel ScopeDatasource "uid1" "") = "ds/uid1".
Proof. reflexivity. Qed.

(** A read failure after the cancellation was taken: the read loop sleeps and
    then blocks for ever on [readingErrors]; the connection stays open. *)
Example failure_after_cancel :
  run [AReaderSelect; ACancel; ASupDone; ARead (inr "EOF"); AReaderSleep]
      (start_sub None)
  = Some (mkSub (SupReturned None) None
                (RSendErr "Error reading the websocket: EOF") PRecv
                (NewFrame "response") [true] false true true [EvSleep 3]).
Proof. reflexivity. Qed.
